(** * Thread reconstruction from a flat reply graph

    A shallow embedding of the three selectors of the thread view
    ([getAncestorsIds], [getDescendantsIds] and the selector inside the
    [Thread] component) together with the properties of the ancestor chain
    and the descendant sequence they compute.

    - Status ids are JavaScript strings; [undefined] is [None].
    - [state.contexts.inReplyTos] and [state.contexts.replies] are read with
      [.get(id)]: finite maps, here [gmap string _].
    - An Immutable [OrderedSet] is a duplicate-free list in insertion order.
      The collections of the [immutable] package are persistent: [reverse],
      [union], [delete] and [subtract] return new collections.
    - The values of [state.contexts.replies] are ordered collections of ids,
      here lists; no property below needs them to be duplicate-free.
    - [createSelector] only caches the last result of the function it wraps;
      the embedding is that function.
    - The two [while] loops are written with a fuel argument that counts
      loop iterations; [None] means that the fuel ran out before the loop
      condition became false. *)

From stdpp Require Import gmap strings list fin_maps relations.

Local Open Scope string_scope.
Local Open Scope list_scope.
Local Open Scope nat_scope.
Local Open Scope stdpp_scope.

(** ** Immutable.OrderedSet *)

Module OrderedSet.

Definition includes (x : string) (s : list string) : bool :=
  bool_decide (x ∈ s).

(** [set.add(value)]: a value already present keeps its position. *)
Definition add (s : list string) (x : string) : list string :=
  if includes x s then s else s ++ [x].

(** [this.union(iter)] adds the values of [iter] one by one. *)
Definition union (s iter : list string) : list string :=
  foldl add s iter.

(** [OrderedSet(iter)]. *)
Definition of_list (iter : list string) : list string :=
  union [] iter.

(** [this.delete(value)]. *)
Definition delete (x : string) (s : list string) : list string :=
  filter (λ y, y ≠ x) s.

(** [this.subtract(other)] removes every value that [other] includes. *)
Definition subtract (s other : list string) : list string :=
  filter (λ y, y ∉ other) s.

End OrderedSet.

(** ** JavaScript glue *)

(** Truthiness of a [string | undefined]: [undefined] and the empty string
    are falsy. *)
Definition truthy (id : option string) : bool :=
  match id with
  | Some s => bool_decide (s ≠ "")
  | None => false
  end.

(** [replies.forEach(reply => ids.unshift(reply))]. *)
Definition forEach_unshift (replies ids : list string) : list string :=
  foldl (λ q reply, reply :: q) ids replies.

(** ** getAncestorsIds *)

(** The loop
    [while (id && !ancestorsIds.includes(id)) { ... }]
    with its two variables [id] and [ancestorsIds]. *)
Fixpoint getAncestorsIds_loop (fuel : nat) (inReplyTos : gmap string string)
    (id : option string) (ancestorsIds : list string) : option (list string) :=
  match id with
  | Some i =>
      if truthy (Some i) && negb (OrderedSet.includes i ancestorsIds) then
        match fuel with
        | O => None
        | S fuel' =>
            getAncestorsIds_loop fuel' inReplyTos (inReplyTos !! i)
              (OrderedSet.union (OrderedSet.of_list [i]) ancestorsIds)
        end
      else Some ancestorsIds
  | None => Some ancestorsIds
  end.

Definition getAncestorsIds (fuel : nat) (statusId : option string)
    (inReplyTos : gmap string string) : option (list string) :=
  getAncestorsIds_loop fuel inReplyTos statusId [].

(** ** getDescendantsIds *)

(** The loop [while (ids.length > 0) { ... }] with the work queue [ids] and
    the accumulated [descendantsIds].  Both [break] statements leave the
    loop, after which [descendantsIds] is returned. *)
Fixpoint getDescendantsIds_loop (fuel : nat) (statusId : string)
    (contextReplies : gmap string (list string))
    (ids descendantsIds : list string) : option (list string) :=
  match ids with
  | [] => Some descendantsIds
  | id :: ids =>
      if negb (truthy (Some id)) then Some descendantsIds
      else
        let replies := contextReplies !! id in
        if OrderedSet.includes id descendantsIds then Some descendantsIds
        else
          let descendantsIds :=
            if bool_decide (statusId ≠ id)
            then OrderedSet.union descendantsIds [id]
            else descendantsIds in
          let ids :=
            match replies with
            | Some replies => forEach_unshift (reverse replies) ids
            | None => ids
            end in
          match fuel with
          | O => None
          | S fuel' =>
              getDescendantsIds_loop fuel' statusId contextReplies
                ids descendantsIds
          end
  end.

Definition getDescendantsIds (fuel : nat) (statusId : string)
    (contextReplies : gmap string (list string)) : option (list string) :=
  getDescendantsIds_loop fuel statusId contextReplies [statusId] [].

(** ** The selector of the Thread component *)

(** The cross-deduplication of the two raw sequences:
    [ancestorsIds.delete(statusId).subtract(descendantsIds)] and then
    [descendantsIds.delete(statusId).subtract(ancestorsIds)], the second
    one reading the ancestors that were just reassigned. *)
Definition crossDedup (statusId : string) (ancestorsIds descendantsIds : list string)
    : list string * list string :=
  let ancestorsIds :=
    OrderedSet.subtract (OrderedSet.delete statusId ancestorsIds) descendantsIds in
  let descendantsIds :=
    OrderedSet.subtract (OrderedSet.delete statusId descendantsIds) ancestorsIds in
  (ancestorsIds, descendantsIds).

(** The function passed to [useAppSelector]: without a status both
    sequences stay empty; [statusId] is [status.id]. *)
Definition Thread_selector (fuel : nat) (status : option string)
    (inReplyTos : gmap string string) (replies : gmap string (list string))
    : option (list string * list string) :=
  match status with
  | None => Some ([], [])
  | Some statusId =>
      ancestorsIds ← getAncestorsIds fuel (inReplyTos !! statusId) inReplyTos;
      descendantsIds ← getDescendantsIds fuel statusId replies;
      Some (crossDedup statusId ancestorsIds descendantsIds)
  end.

(** ** The operations under the names of the specification *)

Definition resolveAncestors (fuel : nat) (focalId : string)
    (parentIndex : gmap string string) : option (list string) :=
  getAncestorsIds fuel (parentIndex !! focalId) parentIndex.

Definition resolveDescendants (fuel : nat) (focalId : string)
    (childIndex : gmap string (list string)) : option (list string) :=
  getDescendantsIds fuel focalId childIndex.

Definition resolveThread (fuel : nat) (focalId : string)
    (parentIndex : gmap string string) (childIndex : gmap string (list string))
    : option (list string * list string) :=
  Thread_selector fuel (Some focalId) parentIndex childIndex.

(** ** Reply graphs

    The vocabulary in which the properties of the three operations are
    stated. *)

(** The condition under which the ancestor loop is left: [id] is falsy or
    already included. *)
Definition ancestors_exit (id : option string) (acc : list string) : Prop :=
  truthy id = false ∨ ∃ i, id = Some i ∧ i ∈ acc.

(** [y] is recorded as the item that [x] replies to. *)
Definition parent_of (parentIndex : gmap string string) (x y : string) : Prop :=
  parentIndex !! x = Some y.

(** A parent link that the ancestor loop follows: the recorded parent is a
    truthy id. *)
Definition parent_link (parentIndex : gmap string string) (x y : string) : Prop :=
  parent_of parentIndex x y ∧ y ≠ "".

(** No id is its own ancestor. *)
Definition acyclic_parents (parentIndex : gmap string string) : Prop :=
  ∀ x, ¬ tc (parent_of parentIndex) x x.

(** Item ids are non-empty strings. *)
Definition valid_parent_ids (parentIndex : gmap string string) : Prop :=
  ∀ x y, parent_of parentIndex x y → y ≠ "".

(** The parent chain of an item, nearest ancestor first, up to the root. *)
Inductive parent_chain (parentIndex : gmap string string)
    : string → list string → Prop :=
  | parent_chain_root x :
      parentIndex !! x = None → parent_chain parentIndex x []
  | parent_chain_step x y chain :
      parent_of parentIndex x y →
      parent_chain parentIndex y chain →
      parent_chain parentIndex x (y :: chain).

(** The depth of an item in the reply tree: a root has depth 0. *)
Inductive depth (parentIndex : gmap string string) : string → nat → Prop :=
  | depth_root x : parentIndex !! x = None → depth parentIndex x 0
  | depth_reply x y n :
      parent_of parentIndex x y → depth parentIndex y n →
      depth parentIndex x (S n).

(** The distinct ids that occur in a parent index, as keys or as values. *)
Definition index_ids (parentIndex : gmap string string) : gset string :=
  dom parentIndex ∪ map_img parentIndex.

(** [y] is listed among the replies to [x]. *)
Definition child_link (childIndex : gmap string (list string)) (x y : string)
    : Prop :=
  ∃ replies, childIndex !! x = Some replies ∧ y ∈ replies.

(** The replies that the descendant loop pushes for [id]: none when the
    index has no entry. *)
Definition replies_of (childIndex : gmap string (list string)) (id : string)
    : list string :=
  default [] (childIndex !! id).

(** The accumulated descendants after a turn on [id]: the focal id is not
    recorded. *)
Definition record_descendant (statusId id : string) (acc : list string)
    : list string :=
  if bool_decide (statusId ≠ id) then acc ++ [id] else acc.

(** The condition under which the descendant loop is left: the queue is
    empty, or its head is falsy or already included. *)
Definition descendants_exit (ids acc : list string) : Prop :=
  ids = [] ∨ ∃ id rest, ids = id :: rest ∧ (id = "" ∨ id ∈ acc).

(** Every id that the child index lists as a reply, that is, every id that
    can be pushed on the work queue. *)
Definition all_replies (childIndex : gmap string (list string)) : list string :=
  map_to_list childIndex ≫= snd.

(** The focal id is truthy and is the first of its own replies. *)
Definition first_reply_is_self (childIndex : gmap string (list string))
    (focalId : string) : Prop :=
  focalId ≠ "" ∧ head (replies_of childIndex focalId) = Some focalId.

(** *** Reply trees *)

#[local] Unset Elimination Schemes.
(** A finite reply tree: an item and the trees of its replies, in order. *)
Inductive tree : Type :=
  | Node (root : string) (kids : list tree).
#[local] Set Elimination Schemes.

Definition root (t : tree) : string :=
  match t with Node i _ => i end.

Definition kids (t : tree) : list tree :=
  match t with Node _ ks => ks end.

(** Pre-order flattening: an item, then the whole subtree of its first
    reply, then the whole subtree of the next reply, and so on. *)
Fixpoint preorder (t : tree) : list string :=
  match t with Node i ks => i :: (ks ≫= preorder) end.

Definition preorder_forest (ts : list tree) : list string :=
  ts ≫= preorder.

(** Every item of a tree with the ordered ids of its replies. *)
Fixpoint nodes (t : tree) : list (string * list string) :=
  match t with Node i ks => (i, root <$> ks) :: (ks ≫= nodes) end.

Fixpoint tree_size (t : tree) : nat :=
  match t with Node _ ks => S (sum_list_with tree_size ks) end.

Definition forest_size (ts : list tree) : nat :=
  sum_list_with tree_size ts.

(** The child index lists, for every item of the tree, the replies that the
    tree gives it. *)
Definition indexed_by (childIndex : gmap string (list string)) (t : tree)
    : Prop :=
  ∀ i replies, (i, replies) ∈ nodes t → replies_of childIndex i = replies.

(** The child index is tree-shaped below the root of [t]: the items of [t]
    are pairwise distinct (no item is reached twice, none is its own
    descendant), their ids are non-empty, and the index lists them as [t]
    does. *)
Definition reply_tree (childIndex : gmap string (list string)) (t : tree)
    : Prop :=
  NoDup (preorder t) ∧ (∀ x, x ∈ preorder t → x ≠ "") ∧ indexed_by childIndex t.

(** No id is its own descendant. *)
Definition acyclic_children (childIndex : gmap string (list string)) : Prop :=
  ∀ x, ¬ tc (child_link childIndex) x x.

(** The tree of the scenario {A: [B, C], B: [D]}. *)
Definition scenario_tree : tree :=
  Node "A" [Node "B" [Node "D" []]; Node "C" []].

(** An index without cycles in which D is listed under both B and C. *)
Definition shared_reply_children : gmap string (list string) :=
  <["A" := ["B"; "C"; "E"]]> (<["B" := ["D"]]> (<["C" := ["D"]]> ∅)).

(** An item that is recorded as a reply to itself. *)
Definition self_reply_children : gmap string (list string) :=
  <["A" := ["A"]]> ∅.

(** The two indexes of the scenarios. *)
Definition scenario_parents : gmap string string :=
  <["B" := "A"]> (<["C" := "B"]> ∅).

Definition scenario_children : gmap string (list string) :=
  <["A" := ["B"; "C"]]> (<["B" := ["D"]]> ∅).

(** Two indexes that contradict each other: B is the parent of C in one
    and a reply to C in the other. *)
Definition inconsistent_parents : gmap string string :=
  <["C" := "B"]> ∅.

Definition inconsistent_children : gmap string (list string) :=
  <["C" := ["B"]]> ∅.

(** A parent index in which the recorded parent of C is the empty string. *)
Definition empty_string_parent : gmap string string :=
  <["C" := ""]> ∅.

(** A parent index with the cycle A→B, B→A. *)
Definition cyclic_parents : gmap string string :=
  <["A" := "B"]> (<["B" := "A"]> ∅).

(** ** The rest of the Thread component

    The keyboard navigation and the list of rendered children of the
    component that consumes the two sequences. *)

(** Adjacent ids of a chain: each one is recorded as the parent of the next. *)
Inductive linked (parentIndex : gmap string string) : list string → Prop :=
  | linked_nil : linked parentIndex []
  | linked_one x : linked parentIndex [x]
  | linked_cons x y l :
      parent_of parentIndex y x → linked parentIndex (y :: l) →
      linked parentIndex (x :: y :: l).

(** [String.prototype.startsWith] and [String.prototype.endsWith], on the
    UTF-8 bytes of the two strings. *)
Definition startsWith (s searchString : string) : bool :=
  String.prefix searchString s.

Definition endsWith (s searchString : string) : bool :=
  let len := String.length s in
  let searchLength := String.length searchString in
  if searchLength <=? len
  then String.eqb (String.substring (len - searchLength) searchLength s)
         searchString
  else false.

(** What is left of [s] behind [pattern], when [s] starts with it. *)
Fixpoint strip_prefix (pattern s : string) : option string :=
  match pattern, s with
  | EmptyString, _ => Some s
  | String a pattern', String b s' =>
      if Ascii.eqb a b then strip_prefix pattern' s' else None
  | String _ _, EmptyString => None
  end.

(** [s.replace(/^pattern/, '')] for a literal pattern. *)
Definition replace_at_start (pattern s : string) : string :=
  default s (strip_prefix pattern s).

(** [ImmutableList(set).indexOf(id)]: the first index, or -1. *)
Fixpoint indexOf_from (id : string) (l : list string) (i : Z) : Z :=
  match l with
  | [] => (-1)%Z
  | x :: l => if decide (x = id) then i else indexOf_from id l (i + 1)%Z
  end.

Definition indexOf (id : string) (l : list string) : Z :=
  indexOf_from id l 0%Z.

Module Thread.

(** The elements of the list of children, with the props that depend on the
    id.  [TombstoneWrapper] is the [div] that [renderTombstone] returns: the
    [div] itself, which is the list element, has no key; the [Tombstone]
    inside it has [key] and [id].  [FocusedStatus] is the [div] of the
    focused status, keyed by [status.id]. *)
Inductive child : Type :=
  | TombstoneWrapper (tombstoneKey id : string)
  | PendingStatus (key idempotencyKey : string)
  | ThreadStatus (key id focusedStatusId : string)
  | FocusedStatus (key : string).

(** The key of a list element, if it has one. *)
Definition key_of (c : child) : option string :=
  match c with
  | TombstoneWrapper _ _ => None
  | PendingStatus key _ | ThreadStatus key _ _ | FocusedStatus key => Some key
  end.

(** The id that a list element was rendered from. *)
Definition rendered_id (c : child) : string :=
  match c with
  | TombstoneWrapper _ id => id
  | PendingStatus key _ => key
  | ThreadStatus _ id _ => id
  | FocusedStatus key => key
  end.

Definition renderTombstone (id : string) : child :=
  TombstoneWrapper id id.

Definition renderStatus (focusedStatusId id : string) : child :=
  ThreadStatus id id focusedStatusId.

Definition renderPendingStatus (id : string) : child :=
  let idempotencyKey := replace_at_start "末pending-" id in
  PendingStatus id idempotencyKey.

Definition renderChildren (focusedStatusId : string) (ids : list string)
    : list child :=
  (λ id,
     if endsWith id "-tombstone" then renderTombstone id
     else if startsWith id "末pending-" then renderPendingStatus id
     else renderStatus focusedStatusId id) <$> ids.

(** The ids from which the children handed to the scrollable list are
    rendered, in their order: the ancestors, the focused status, the
    descendants. *)
Definition children_keys (statusId : string)
    (ancestorsIds descendantsIds : list string) : list string :=
  ancestorsIds ++ [statusId] ++ descendantsIds.

(** The array [children] of the component, for a status that is present. *)
Definition children (statusId : string)
    (ancestorsIds descendantsIds : list string) : list child :=
  renderChildren statusId ancestorsIds
  ++ [FocusedStatus statusId]
  ++ renderChildren statusId descendantsIds.

(** The index that [handleMoveUp] passes to [_selectChild]; [status] is the
    id of the status of the component, if it has one. *)
Definition handleMoveUp (status : option string)
    (ancestorsIds descendantsIds : list string) (id : string) : Z :=
  if decide (Some id = status) then (Z.of_nat (List.length ancestorsIds) - 1)%Z
  else
    let index := indexOf id ancestorsIds in
    if decide (index = (-1)%Z) then
      let index := indexOf id descendantsIds in
      (Z.of_nat (List.length ancestorsIds) + index)%Z
    else (index - 1)%Z.

Definition handleMoveDown (status : option string)
    (ancestorsIds descendantsIds : list string) (id : string) : Z :=
  if decide (Some id = status) then (Z.of_nat (List.length ancestorsIds) + 1)%Z
  else
    let index := indexOf id ancestorsIds in
    if decide (index = (-1)%Z) then
      let index := indexOf id descendantsIds in
      (Z.of_nat (List.length ancestorsIds) + index + 2)%Z
    else (index + 1)%Z.

End Thread.

(** ** The page helpers of the query mocks

    A page carries its [result] and further fields that the helpers copy
    with a spread; so does the infinite data around the pages.  The helpers
    hand an updater to the query client: the updater is what is modelled,
    from the cached data (or [undefined]) to the new data (or [undefined],
    which leaves the cache as it is). *)

Module queries.

Record PaginatedResult (T R : Type) : Type :=
  { result : list T; page_fields : R }.
Arguments result {T R} _.
Arguments page_fields {T R} _.

Record InfiniteData (T R P : Type) : Type :=
  { pages : list (PaginatedResult T R); data_fields : P }.
Arguments pages {T R P} _.
Arguments data_fields {T R P} _.

(** The outcome of an updater that can fail on [pages[0].result]. *)
Inductive outcome (A : Type) : Type :=
  | Returned (a : A)
  | TypeError.
Arguments Returned {A} _.
Arguments TypeError {A}.

Definition flattenPages {T R P : Type}
    (queryData : option (InfiniteData T R P)) : option (list T) :=
  (λ data, foldl (λ prev curr, result curr ++ prev) [] (pages data))
    <$> queryData.

Definition updatePageItem {T R P : Type} (newItem : T)
    (isItem : T → T → bool) (data : option (InfiniteData T R P))
    : option (InfiniteData T R P) :=
  match data with
  | Some data =>
      let pages :=
        (λ page,
           let result :=
             (λ item, if isItem item newItem then newItem else item)
               <$> result page in
           {| result := result; page_fields := page_fields page |})
          <$> pages data in
      Some {| pages := pages; data_fields := data_fields data |}
  | None => None
  end.

Definition appendPageItem {T R P : Type} (newItem : T)
    (data : option (InfiniteData T R P))
    : outcome (option (InfiniteData T R P)) :=
  match data with
  | Some data =>
      match pages data with
      | page0 :: rest =>
          let pages :=
            {| result := result page0 ++ [newItem];
               page_fields := page_fields page0 |} :: rest in
          Returned (Some {| pages := pages; data_fields := data_fields data |})
      | [] => TypeError
      end
  | None => Returned None
  end.

Definition removePageItem {T R P : Type} (itemToRemove : T)
    (isItem : T → T → bool) (data : option (InfiniteData T R P))
    : option (InfiniteData T R P) :=
  match data with
  | Some data =>
      let pages :=
        (λ page,
           let result :=
             filter (λ item, isItem item itemToRemove = false) (result page) in
           {| result := result; page_fields := page_fields page |})
          <$> pages data in
      Some {| pages := pages; data_fields := data_fields data |}
  | None => None
  end.

End queries.

(** * Properties *)

(** ** Ordered sets as duplicate-free lists *)

Section ordered_set_facts.
Implicit Types (s t : list string) (x y : string).

Lemma includes_true x s : OrderedSet.includes x s = true ↔ x ∈ s.
Proof. unfold OrderedSet.includes. apply bool_decide_eq_true. Qed.

Lemma includes_false x s : OrderedSet.includes x s = false ↔ x ∉ s.
Proof. unfold OrderedSet.includes. apply bool_decide_eq_false. Qed.

Lemma add_fresh s x : x ∉ s → OrderedSet.add s x = s ++ [x].
Proof.
  intros Hx. unfold OrderedSet.add.
  by rewrite (proj2 (includes_false x s) Hx).
Qed.

Lemma union_fresh t : ∀ s,
  NoDup t → (∀ x, x ∈ t → x ∉ s) → OrderedSet.union s t = s ++ t.
Proof.
  unfold OrderedSet.union.
  induction t as [|y t IH]; intros s Hnd Hfresh; simpl.
  - by rewrite app_nil_r.
  - apply NoDup_cons in Hnd as [Hy Hnd].
    rewrite add_fresh by (apply Hfresh; left).
    rewrite IH; [by rewrite <- app_assoc | done |].
    intros x Hx [Hin | ->%list_elem_of_singleton]%elem_of_app.
    + by apply (Hfresh x); [right |].
    + done.
Qed.

(** [OrderedSet([x]).union(s)] puts [x] in front of [s]. *)
Lemma union_front x s :
  NoDup s → x ∉ s → OrderedSet.union (OrderedSet.of_list [x]) s = x :: s.
Proof.
  intros Hnd Hx. unfold OrderedSet.of_list.
  rewrite (union_fresh [x] []); [| apply NoDup_singleton | by inversion 2].
  simpl. rewrite (union_fresh s [x]); [done | done |].
  intros y Hy ->%list_elem_of_singleton. done.
Qed.

Lemma elem_of_delete x y s : y ∈ OrderedSet.delete x s ↔ y ≠ x ∧ y ∈ s.
Proof. unfold OrderedSet.delete. apply (list_elem_of_filter (λ z, z ≠ x)). Qed.

Lemma elem_of_subtract y s t : y ∈ OrderedSet.subtract s t ↔ (y ∉ t) ∧ y ∈ s.
Proof. unfold OrderedSet.subtract. apply (list_elem_of_filter (λ z, z ∉ t)). Qed.

(** Reversing the replies and unshifting them one by one leaves them in
    their original order at the front of the queue. *)
Lemma forEach_unshift_reverse (replies ids : list string) :
  forEach_unshift (reverse replies) ids = replies ++ ids.
Proof.
  unfold forEach_unshift. revert ids.
  induction replies as [|r replies IH] using rev_ind; intros ids; [done |].
  rewrite reverse_snoc. simpl. rewrite IH. by rewrite <- app_assoc.
Qed.
End ordered_set_facts.

(** ** The ancestor loop *)

Section ancestors.
Variable inReplyTos : gmap string string.

(** One turn of the loop, for a duplicate-free [ancestorsIds]. *)
Lemma ancestors_loop_turn fuel i acc :
  NoDup acc → i ≠ "" → i ∉ acc →
  getAncestorsIds_loop (S fuel) inReplyTos (Some i) acc
  = getAncestorsIds_loop fuel inReplyTos (inReplyTos !! i) (i :: acc).
Proof.
  intros Hnd Hi Hfresh. simpl.
  rewrite (bool_decide_eq_true_2 _ Hi), (proj2 (includes_false i acc) Hfresh).
  simpl. by rewrite union_front.
Qed.

Lemma ancestors_loop_cases id acc :
  ancestors_exit id acc ∨ ∃ i, id = Some i ∧ i ≠ "" ∧ i ∉ acc.
Proof.
  destruct id as [i|]; [| by left; left].
  destruct (decide (i = "")) as [->|Hi]; [by left; left |].
  destruct (decide (i ∈ acc)); [left; right; eauto | right; eauto].
Qed.

Lemma ancestors_loop_exit fuel id acc :
  ancestors_exit id acc →
  getAncestorsIds_loop fuel inReplyTos id acc = Some acc.
Proof.
  intros [Hf | (i & -> & Hi)]; destruct fuel; simpl.
  1,2: destruct id as [i|]; [| done]; simpl in Hf; by rewrite Hf.
  all: rewrite (proj2 (includes_true i acc) Hi); by rewrite andb_false_r.
Qed.

(** Invariant rule: a property of the two loop variables that every turn
    preserves holds, together with the exit condition, when the loop
    returns. *)
Lemma ancestors_loop_invariant (I : option string → list string → Prop) :
  (∀ i acc, I (Some i) acc → NoDup acc → i ≠ "" → i ∉ acc →
            I (inReplyTos !! i) (i :: acc)) →
  ∀ fuel id acc r,
    I id acc → NoDup acc →
    getAncestorsIds_loop fuel inReplyTos id acc = Some r →
    NoDup r ∧ ∃ id', I id' r ∧ ancestors_exit id' r.
Proof.
  intros Hturn fuel.
  induction fuel as [|fuel IH]; intros id acc r HI Hnd Hrun.
  - destruct (ancestors_loop_cases id acc) as [Hexit | (i & -> & Hi & Hfresh)].
    + rewrite ancestors_loop_exit in Hrun by done.
      injection Hrun as <-. eauto.
    + simpl in Hrun.
      rewrite (bool_decide_eq_true_2 _ Hi),
        (proj2 (includes_false i acc) Hfresh) in Hrun. done.
  - destruct (ancestors_loop_cases id acc) as [Hexit | (i & -> & Hi & Hfresh)].
    + rewrite ancestors_loop_exit in Hrun by done.
      injection Hrun as <-. eauto.
    + rewrite ancestors_loop_turn in Hrun by done.
      apply IH in Hrun; [done | by apply Hturn |].
      by apply NoDup_cons.
Qed.

(** More fuel does not change a result. *)
Lemma ancestors_loop_fuel_mono fuel : ∀ k id acc r,
  getAncestorsIds_loop fuel inReplyTos id acc = Some r →
  getAncestorsIds_loop (fuel + k) inReplyTos id acc = Some r.
Proof.
  induction fuel as [|fuel IH]; intros k id acc r Hrun.
  - destruct id as [i|]; simpl in *; [| by destruct k].
    destruct (bool_decide (i ≠ "") && negb (OrderedSet.includes i acc)) eqn:E;
      [done |].
    destruct k; simpl; by rewrite E.
  - destruct id as [i|]; simpl in *; [| done].
    destruct (bool_decide (i ≠ "") && negb (OrderedSet.includes i acc));
      [by apply IH | done].
Qed.

(** Every id that the loop holds is a value of the index, so a
    duplicate-free accumulator is no longer than the index. *)
Lemma values_bound (acc : list string) :
  NoDup acc → (∀ x, x ∈ acc → ∃ k, inReplyTos !! k = Some x) →
  List.length acc ≤ size inReplyTos.
Proof.
  intros Hnd Hval.
  rewrite <- (length_map_to_list inReplyTos).
  rewrite <- (length_fmap snd (map_to_list inReplyTos)).
  apply submseteq_length, NoDup_submseteq; [done |].
  intros x (k & Hk)%Hval.
  apply list_elem_of_fmap. exists (k, x). split; [done |].
  by apply elem_of_map_to_list.
Qed.

Lemma ancestors_loop_terminates fuel : ∀ id acc,
  NoDup acc →
  (∀ x, x ∈ acc → ∃ k, inReplyTos !! k = Some x) →
  (∀ i, id = Some i → ∃ k, inReplyTos !! k = Some i) →
  size inReplyTos ≤ fuel + List.length acc →
  is_Some (getAncestorsIds_loop fuel inReplyTos id acc).
Proof.
  induction fuel as [|fuel IH]; intros id acc Hnd Hacc Hid Hfuel.
  - destruct (ancestors_loop_cases id acc) as [Hexit | (i & -> & Hi & Hfresh)].
    + rewrite ancestors_loop_exit by done. eauto.
    + assert (List.length (i :: acc) ≤ size inReplyTos) as Hlen.
      { apply values_bound; [by apply NoDup_cons |].
        intros x [->|Hx]%elem_of_cons; eauto. }
      simpl in *. lia.
  - destruct (ancestors_loop_cases id acc) as [Hexit | (i & -> & Hi & Hfresh)].
    + rewrite ancestors_loop_exit by done. eauto.
    + rewrite ancestors_loop_turn by done.
      apply IH.
      * by apply NoDup_cons.
      * intros x [->|Hx]%elem_of_cons; eauto.
      * eauto.
      * simpl. lia.
Qed.
End ancestors.

(** ** Ancestors: termination, bound and contents *)

Section ancestors_results.
Variable parentIndex : gmap string string.
Variable focalId : string.

Lemma resolveAncestors_fuel_mono fuel k r :
  resolveAncestors fuel focalId parentIndex = Some r →
  resolveAncestors (fuel + k) focalId parentIndex = Some r.
Proof. apply ancestors_loop_fuel_mono. Qed.

Lemma resolveAncestors_terminates :
  is_Some (resolveAncestors (size parentIndex) focalId parentIndex).
Proof.
  apply ancestors_loop_terminates.
  - apply NoDup_nil_2.
  - by inversion 1.
  - eauto.
  - simpl. lia.
Qed.

(** The loop only ever holds values of the index. *)
Lemma resolveAncestors_values fuel r :
  resolveAncestors fuel focalId parentIndex = Some r →
  NoDup r ∧ ∀ x, x ∈ r → ∃ k, parentIndex !! k = Some x.
Proof.
  intros Hrun.
  apply (ancestors_loop_invariant parentIndex (λ id acc,
    (∀ x, x ∈ acc → ∃ k, parentIndex !! k = Some x) ∧
    (∀ i, id = Some i → ∃ k, parentIndex !! k = Some i))) in Hrun.
  - destruct Hrun as (Hnd & id' & [Hacc _] & _). done.
  - intros i acc [Hacc Hid] _ _ _. split; [| eauto].
    intros x [->|Hx]%elem_of_cons; eauto.
  - split; [by inversion 1 | eauto].
  - apply NoDup_nil_2.
Qed.

Lemma tc_parent_link_inv x y :
  tc (parent_link parentIndex) x y →
  ∃ z, parent_link parentIndex x z ∧ rtc (parent_link parentIndex) z y.
Proof.
  intros [x' y' Hxy | x' z y' Hxz Hzy]; [by eauto using rtc_refl |].
  exists z. split; [done |]. by apply tc_rtc.
Qed.

(** The returned ids are exactly the ids that are reached from the focal
    id over one or more truthy parent links. *)
Lemma resolveAncestors_elem_of fuel r :
  resolveAncestors fuel focalId parentIndex = Some r →
  ∀ y, y ∈ r ↔ tc (parent_link parentIndex) focalId y.
Proof.
  intros Hrun.
  apply (ancestors_loop_invariant parentIndex (λ id acc,
    (∀ x, x ∈ acc → tc (parent_link parentIndex) focalId x) ∧
    (∀ i, id = Some i → i ≠ "" → tc (parent_link parentIndex) focalId i) ∧
    (∀ x z, x ∈ acc → parent_link parentIndex x z → z ∈ acc ∨ id = Some z) ∧
    (∀ y, tc (parent_link parentIndex) focalId y →
          y ∈ acc ∨ ∃ i, id = Some i ∧ i ≠ "" ∧
                         rtc (parent_link parentIndex) i y))) in Hrun.
  - destruct Hrun as (_ & id' & (Hsound & _ & Hclosed & Hcompl) & Hexit).
    intros y. split; [apply Hsound |].
    intros [Hy | (i & -> & Hi & Hreach)]%Hcompl; [done |].
    destruct Hexit as [Hfalsy | (i' & [= <-] & Hin)].
    { simpl in Hfalsy. by apply bool_decide_eq_false in Hfalsy. }
    assert (∀ x z, x ∈ r → parent_link parentIndex x z → z ∈ r) as Hcl.
    { intros x z Hx Hxz. destruct (Hclosed x z Hx Hxz) as [|[= ->]]; done. }
    clear Hclosed Hcompl Hi.
    induction Hreach as [|i z y Hiz _ IH]; [done |].
    apply IH. by eapply Hcl.
  - intros i acc (Hsound & Hid & Hclosed & Hcompl) _ Hi Hfresh.
    split_and!.
    + intros x [->|Hx]%elem_of_cons; eauto.
    + intros z Hz Hz'. eapply tc_r; [by eapply Hid |]. done.
    + intros x z [->|Hx]%elem_of_cons [Hxz Hz].
      * by right.
      * destruct (Hclosed x z Hx (conj Hxz Hz)) as [|[= ->]];
          left; [by right | by left].
    + intros y [Hy | (i' & [= <-] & _ & Hreach)]%Hcompl; [left; by right |].
      apply rtc_inv in Hreach as [-> | (z & [Hiz Hz] & Hzy)];
        [left; by left |].
      right. exists z. done.
  - split_and!.
    + by inversion 1.
    + intros i Hi Hne. by apply tc_once.
    + by inversion 1.
    + intros y (z & [Hfz Hz] & Hzy)%tc_parent_link_inv. right. eauto.
  - apply NoDup_nil_2.
Qed.

Lemma index_ids_bound : size parentIndex ≤ size (index_ids parentIndex).
Proof.
  rewrite <- size_dom. apply subseteq_size.
  unfold index_ids. set_solver.
Qed.
End ancestors_results.

Lemma resolveAncestors_fuel_agree focalId parentIndex n m r1 r2 :
  resolveAncestors n focalId parentIndex = Some r1 →
  resolveAncestors m focalId parentIndex = Some r2 → r1 = r2.
Proof.
  intros H1%(resolveAncestors_fuel_mono _ _ _ m)
         H2%(resolveAncestors_fuel_mono _ _ _ n).
  rewrite (Nat.add_comm m n) in H2. congruence.
Qed.

(** C7. For every focal id and every parent index, cyclic ones included,
    [resolveAncestors] returns as soon as the fuel reaches the size of the
    index; the result is duplicate-free and no longer than the number of
    distinct ids of the index.  For the cycle A→B, B→A and focal id A the
    result is [A; B]. *)
Theorem resolveAncestors_terminates_bounded :
  (∀ (focalId : string) (parentIndex : gmap string string),
     ∃ r, (∀ k, resolveAncestors (size parentIndex + k) focalId parentIndex
                = Some r)
          ∧ NoDup r
          ∧ List.length r ≤ size parentIndex
          ∧ List.length r ≤ size (index_ids parentIndex))
  ∧ tc (parent_of cyclic_parents) "A" "A"
  ∧ resolveAncestors 2 "A" cyclic_parents = Some ["A"; "B"].
Proof.
  split_and!.
  - intros focalId parentIndex.
    destruct (resolveAncestors_terminates parentIndex focalId) as [r Hr].
    exists r.
    destruct (resolveAncestors_values _ _ _ _ Hr) as [Hnd Hval].
    pose proof (values_bound parentIndex r Hnd Hval) as Hlen.
    pose proof (index_ids_bound parentIndex).
    split_and!; [| done | done | lia].
    intros k. by apply resolveAncestors_fuel_mono.
  - eapply tc_l; [| apply tc_once]; by vm_compute.
  - by vm_compute.
Qed.

(** C3, as stated, fails: on the cycle A→B, B→A the loop started at B, the
    parent of the focal id A, adds B and then A before the guard fires. *)
Lemma resolveAncestors_contains_focal_on_cycle :
  ¬ (∀ fuel (focalId : string) (parentIndex : gmap string string) r,
       resolveAncestors fuel focalId parentIndex = Some r → focalId ∉ r).
Proof.
  intros Hclaim.
  apply (Hclaim 2 "A" cyclic_parents ["A"; "B"]); [by vm_compute | left].
Qed.

(** The selector of the component deletes the focal id and subtracts the
    descendants from the ancestors before it subtracts the ancestors from
    the descendants. *)
Lemma crossDedup_spec statusId ancestorsIds descendantsIds a d :
  crossDedup statusId ancestorsIds descendantsIds = (a, d) →
  (∀ x, x ∈ a ↔ x ∈ ancestorsIds ∧ x ≠ statusId ∧ x ∉ descendantsIds) ∧
  (∀ x, x ∈ d ↔ x ∈ descendantsIds ∧ x ≠ statusId ∧ x ∉ a).
Proof.
  unfold crossDedup. intros [= <- <-]. split; intros x.
  - rewrite elem_of_subtract, elem_of_delete. tauto.
  - rewrite elem_of_subtract, elem_of_delete. tauto.
Qed.

Lemma resolveThread_inv fuel focalId parentIndex childIndex a d :
  resolveThread fuel focalId parentIndex childIndex = Some (a, d) →
  ∃ rawA rawD,
    resolveAncestors fuel focalId parentIndex = Some rawA ∧
    resolveDescendants fuel focalId childIndex = Some rawD ∧
    crossDedup focalId rawA rawD = (a, d).
Proof.
  unfold resolveThread, Thread_selector, resolveAncestors, resolveDescendants.
  intros Hrun.
  destruct (getAncestorsIds fuel (parentIndex !! focalId) parentIndex)
    as [rawA|]; [| done].
  destruct (getDescendantsIds fuel focalId childIndex) as [rawD|]; [| done].
  simpl in Hrun. exists rawA, rawD. by simplify_eq.
Qed.

Lemma tc_parent_link_valid parentIndex x y :
  valid_parent_ids parentIndex →
  tc (parent_link parentIndex) x y ↔ tc (parent_of parentIndex) x y.
Proof.
  intros Hvalid. split.
  - induction 1 as [x y [Hxy _] | x y z [Hxy _] _ IH];
      [by apply tc_once | by eapply tc_l].
  - induction 1 as [x y Hxy | x y z Hxy _ IH].
    + apply tc_once. split; [done | by eapply Hvalid].
    + eapply tc_l; [| done]. split; [done | by eapply Hvalid].
Qed.

(** C3, amended. The result of [resolveAncestors] contains the focal id
    exactly when a cycle of parent links through non-empty ids makes the
    focal id its own ancestor; when no recorded parent is the empty string,
    that is exactly when a cycle of recorded parents does.  Whatever the raw
    chain holds, the ancestor sequence that [resolveThread] returns is taken
    from it and does not contain the focal id, because the focal id is
    deleted there. *)
Theorem resolveAncestors_focal_iff_own_ancestor :
  ∀ (focalId : string) (parentIndex : gmap string string),
    ∃ r, (∀ k, resolveAncestors (size parentIndex + k) focalId parentIndex
               = Some r)
         ∧ (focalId ∈ r ↔ tc (parent_link parentIndex) focalId focalId)
         ∧ (valid_parent_ids parentIndex →
            (focalId ∈ r ↔ tc (parent_of parentIndex) focalId focalId))
         ∧ (∀ fuel (childIndex : gmap string (list string)) a d,
              resolveThread fuel focalId parentIndex childIndex = Some (a, d) →
              (focalId ∉ a) ∧ ∀ x, x ∈ a → x ∈ r).
Proof.
  intros focalId parentIndex.
  destruct (resolveAncestors_terminates parentIndex focalId) as [r Hr].
  pose proof (resolveAncestors_elem_of parentIndex focalId
                (size parentIndex) r Hr focalId) as Hiff.
  exists r. split_and!.
  - intros k. by apply resolveAncestors_fuel_mono.
  - done.
  - intros Hvalid. by rewrite Hiff, tc_parent_link_valid.
  - intros fuel childIndex a d
      (rawA & rawD & HA & _ & [Ha _]%crossDedup_spec)%resolveThread_inv.
    rewrite (resolveAncestors_fuel_agree _ _ _ _ _ _ HA Hr) in Ha.
    split.
    + intros (_ & Hne & _)%Ha. done.
    + intros x (Hx & _)%Ha. done.
Qed.

Lemma resolveAncestors_focal_witness :
  resolveThread 2 "A" cyclic_parents ∅ = Some (["B"], [])
  ∧ ("A" ∉ ["B"]) ∧ ∀ x : string, x ∈ ["B"] → x ∈ ["A"; "B"].
Proof.
  split; [vm_compute; reflexivity |].
  destruct (resolveAncestors_focal_iff_own_ancestor "A" cyclic_parents)
    as (r & Hr & _ & _ & Hthread).
  assert (r = ["A"; "B"]) as ->.
  { specialize (Hr 0). vm_compute in Hr. by injection Hr as <-. }
  apply (Hthread 2 ∅ ["B"] []). vm_compute; reflexivity.
Defined.

(** C9. A non-focal id that both raw sequences contain is subtracted from
    the ancestors, which are reduced first against the raw descendants, and
    survives among the descendants, which are reduced against the ancestors
    that were already reduced. *)
Theorem resolveThread_shared_id_stays_descendant :
  ∀ fuel (focalId : string) (parentIndex : gmap string string)
    (childIndex : gmap string (list string)) rawA rawD x,
    resolveAncestors fuel focalId parentIndex = Some rawA →
    resolveDescendants fuel focalId childIndex = Some rawD →
    x ≠ focalId → x ∈ rawA → x ∈ rawD →
    ∃ a d,
      resolveThread fuel focalId parentIndex childIndex = Some (a, d)
      ∧ a = OrderedSet.subtract (OrderedSet.delete focalId rawA) rawD
      ∧ d = OrderedSet.subtract (OrderedSet.delete focalId rawD) a
      ∧ x ∈ d ∧ x ∉ a.
Proof.
  intros fuel focalId parentIndex childIndex rawA rawD x HA HD Hx HxA HxD.
  unfold resolveThread, Thread_selector.
  unfold resolveAncestors in HA. unfold resolveDescendants in HD.
  rewrite HA, HD. simpl. unfold crossDedup.
  eexists _, _. split_and!; [done | done | done | |].
  - rewrite elem_of_subtract, elem_of_delete, elem_of_subtract. tauto.
  - rewrite elem_of_subtract. tauto.
Qed.

Lemma resolveThread_shared_id_witness :
  ∃ a d,
    resolveThread 2 "C" inconsistent_parents inconsistent_children
      = Some (a, d)
    ∧ a = OrderedSet.subtract (OrderedSet.delete "C" ["B"]) ["B"]
    ∧ d = OrderedSet.subtract (OrderedSet.delete "C" ["B"]) a
    ∧ "B" ∈ d ∧ "B" ∉ a.
Proof.
  apply (resolveThread_shared_id_stays_descendant 2 "C"
           inconsistent_parents inconsistent_children ["B"] ["B"] "B").
  - vm_compute; reflexivity.
  - vm_compute; reflexivity.
  - discriminate.
  - left.
  - left.
Defined.

(** ** Ancestors of an acyclic index *)

Section parent_chains.
Variable parentIndex : gmap string string.

Lemma parent_chain_tc x chain :
  parent_chain parentIndex x chain →
  ∀ y, y ∈ chain → tc (parent_of parentIndex) x y.
Proof.
  induction 1 as [|x y chain Hxy _ IH]; intros z Hz; [by inversion Hz |].
  apply elem_of_cons in Hz as [->|Hz]; [by apply tc_once |].
  eapply tc_l; [done | by apply IH].
Qed.

Lemma parent_chain_depth x chain :
  parent_chain parentIndex x chain →
  depth parentIndex x (List.length chain).
Proof.
  induction 1 as [x Hx | x y chain Hxy _ IH]; simpl.
  - by apply depth_root.
  - by eapply depth_reply.
Qed.

Lemma parent_chain_NoDup x chain :
  acyclic_parents parentIndex →
  parent_chain parentIndex x chain → NoDup chain.
Proof.
  intros Hacyclic.
  induction 1 as [|x y chain Hxy Hchain IH]; [apply NoDup_nil_2 |].
  apply NoDup_cons. split; [| done].
  intros Hy. apply (Hacyclic y). by eapply parent_chain_tc.
Qed.

Lemma keys_bound (l : list string) :
  NoDup l → (∀ x, x ∈ l → is_Some (parentIndex !! x)) →
  List.length l ≤ size parentIndex.
Proof.
  intros Hnd Hkeys.
  rewrite <- (length_map_to_list parentIndex).
  rewrite <- (length_fmap fst (map_to_list parentIndex)).
  apply submseteq_length, NoDup_submseteq; [done |].
  intros x [v Hv]%Hkeys.
  apply list_elem_of_fmap. exists (x, v). split; [done |].
  by apply elem_of_map_to_list.
Qed.

(** In a finite index without cycles the walk to the root is finite: the
    ids already walked are distinct keys of the index. *)
Lemma parent_chain_exists_from n : ∀ x visited,
  acyclic_parents parentIndex →
  NoDup visited →
  (∀ v, v ∈ visited →
        tc (parent_of parentIndex) v x ∧ is_Some (parentIndex !! v)) →
  size parentIndex ≤ n + List.length visited →
  ∃ chain, parent_chain parentIndex x chain.
Proof.
  induction n as [|n IH]; intros x visited Hacyclic Hnd Hvis Hsize.
  all: destruct (parentIndex !! x) as [y|] eqn:Hx;
    [| by exists []; apply parent_chain_root].
  all: assert (x ∉ visited) as Hfresh
    by (intros [Hxx _]%Hvis; by apply (Hacyclic x)).
  all: assert (List.length (x :: visited) ≤ size parentIndex) as Hlen
    by (apply keys_bound; [by apply NoDup_cons |];
        intros v [->|[_ Hv]%Hvis]%elem_of_cons; eauto).
  - simpl in *. lia.
  - destruct (IH y (x :: visited)) as [chain Hchain]; [done | | | |].
    + by apply NoDup_cons.
    + intros v [->|[Hvx Hv]%Hvis]%elem_of_cons.
      * split; [by apply tc_once | eauto].
      * split; [by eapply tc_r | done].
    + simpl. lia.
    + exists (y :: chain). by apply parent_chain_step.
Qed.

Lemma parent_chain_exists x :
  acyclic_parents parentIndex → ∃ chain, parent_chain parentIndex x chain.
Proof.
  intros Hacyclic.
  apply (parent_chain_exists_from (size parentIndex) x []);
    [done | apply NoDup_nil_2 | by inversion 1 | lia].
Qed.

(** Along a chain of fresh, truthy ids the loop prepends one id per turn. *)
Lemma ancestors_loop_chain x chain :
  parent_chain parentIndex x chain →
  ∀ acc k,
    NoDup acc → NoDup chain →
    (∀ y, y ∈ chain → y ≠ "" ∧ y ∉ acc) →
    getAncestorsIds_loop (List.length chain + k) parentIndex
      (parentIndex !! x) acc
    = Some (reverse chain ++ acc).
Proof.
  induction 1 as [x Hx | x y chain Hxy _ IH];
    intros acc k Hacc Hnd Hfresh.
  - rewrite Hx. by destruct k.
  - rewrite Hxy. apply NoDup_cons in Hnd as [Hy Hnd].
    destruct (Hfresh y) as [Hne Hyacc]; [by left |].
    simpl List.length. simpl Nat.add.
    rewrite ancestors_loop_turn by done.
    rewrite IH; [| by apply NoDup_cons | done |].
    + by rewrite reverse_cons, <- app_assoc.
    + intros z Hz. destruct (Hfresh z) as [Hzne Hzacc]; [by right |].
      split; [done |].
      intros [->|Hin]%elem_of_cons; done.
Qed.
End parent_chains.

Lemma scenario_parents_acyclic : acyclic_parents scenario_parents.
Proof.
  set (rank := λ s : string,
         if decide (s = "A") then 0 else if decide (s = "B") then 1 else 2).
  assert (∀ x y, tc (parent_of scenario_parents) x y → rank y < rank x) as Hrank.
  { induction 1 as [x y Hxy | x y z Hxy _ IH].
    2: etrans; [apply IH |].
    all: unfold parent_of, scenario_parents in Hxy.
    all: rewrite !lookup_insert in Hxy.
    all: repeat case_decide; simplify_eq; vm_compute; lia. }
  intros x Hxx%Hrank. lia.
Qed.

Lemma scenario_parents_valid : valid_parent_ids scenario_parents.
Proof.
  intros x y Hxy. unfold parent_of, scenario_parents in Hxy.
  rewrite !lookup_insert in Hxy.
  repeat case_decide; by simplify_eq.
Qed.

(** C6. For an acyclic parent index over non-empty ids, [resolveAncestors]
    returns the whole parent chain of the focal id, root first (the reverse
    of the chain read upwards from the focal id), and its length is the
    depth of the focal id.  For the index B→A, C→B and focal id C the
    result is [A; B]. *)
Theorem resolveAncestors_acyclic_chain :
  (∀ (focalId : string) (parentIndex : gmap string string),
     acyclic_parents parentIndex → valid_parent_ids parentIndex →
     ∃ chain r,
       parent_chain parentIndex focalId chain
       ∧ (∀ k, resolveAncestors (List.length chain + k) focalId parentIndex
               = Some r)
       ∧ r = reverse chain
       ∧ depth parentIndex focalId (List.length r))
  ∧ resolveAncestors 2 "C" scenario_parents = Some ["A"; "B"].
Proof.
  split; [| by vm_compute].
  intros focalId parentIndex Hacyclic Hvalid.
  destruct (parent_chain_exists parentIndex focalId Hacyclic) as [chain Hchain].
  exists chain, (reverse chain). split_and!; [done | | done |].
  - intros k. unfold resolveAncestors, getAncestorsIds.
    rewrite (ancestors_loop_chain parentIndex focalId chain Hchain [] k).
    + by rewrite app_nil_r.
    + apply NoDup_nil_2.
    + by eapply parent_chain_NoDup.
    + intros y Hy. split; [| by inversion 1].
      pose proof (parent_chain_tc _ _ _ Hchain y Hy) as Hreach.
      apply tc_rtc, rtc_inv_r in Hreach as [-> | (z & _ & Hzy)].
      * exfalso. by eapply Hacyclic, parent_chain_tc.
      * by eapply Hvalid.
  - rewrite length_reverse. by apply parent_chain_depth.
Qed.

Lemma resolveAncestors_acyclic_chain_witness :
  ∃ chain r,
    parent_chain scenario_parents "C" chain
    ∧ (∀ k, resolveAncestors (List.length chain + k) "C" scenario_parents
            = Some r)
    ∧ r = reverse chain
    ∧ depth scenario_parents "C" (List.length r).
Proof.
  apply (proj1 resolveAncestors_acyclic_chain "C" scenario_parents).
  - apply scenario_parents_acyclic.
  - apply scenario_parents_valid.
Defined.

Lemma empty_string_parent_acyclic : acyclic_parents empty_string_parent.
Proof.
  set (rank := λ s : string, if decide (s = "C") then 1 else 0).
  assert (∀ x y, tc (parent_of empty_string_parent) x y → rank y < rank x)
    as Hrank.
  { induction 1 as [x y Hxy | x y z Hxy _ IH].
    2: etrans; [apply IH |].
    all: unfold parent_of, empty_string_parent in Hxy.
    all: rewrite !lookup_insert in Hxy.
    all: repeat case_decide; simplify_eq; vm_compute; lia. }
  intros x Hxx%Hrank. lia.
Qed.

(** C6, as stated, fails: the index {C: ""} has no cycle and records a
    parent for C, so the parent chain of C has one id and C has depth 1, but
    the loop test [id && ...] reads the empty string like a missing parent
    and the result is empty. *)
Lemma resolveAncestors_stops_at_empty_parent :
  ¬ (∀ (focalId : string) (parentIndex : gmap string string),
       acyclic_parents parentIndex →
       ∃ chain r,
         parent_chain parentIndex focalId chain
         ∧ (∀ k, resolveAncestors (List.length chain + k) focalId parentIndex
                 = Some r)
         ∧ r = reverse chain
         ∧ depth parentIndex focalId (List.length r)).
Proof.
  intros Hclaim.
  destruct (Hclaim "C" empty_string_parent empty_string_parent_acyclic)
    as (chain & r & Hchain & Hrun & -> & _).
  assert (∀ fuel, resolveAncestors fuel "C" empty_string_parent = Some [])
    as Hempty by (by intros [|fuel]).
  specialize (Hrun 0). rewrite Hempty in Hrun.
  injection Hrun as Hrev. symmetry in Hrev.
  apply (f_equal reverse) in Hrev. rewrite reverse_involutive in Hrev.
  subst chain. inversion Hchain as [x Hnone |]. by vm_compute in Hnone.
Qed.

(** ** The descendant loop *)

Section descendants.
Variable statusId : string.
Variable contextReplies : gmap string (list string).

(** One turn of the loop on a truthy id that is not yet included. *)
Lemma descendants_loop_turn fuel id ids acc :
  id ≠ "" → id ∉ acc →
  getDescendantsIds_loop (S fuel) statusId contextReplies (id :: ids) acc
  = getDescendantsIds_loop fuel statusId contextReplies
      (replies_of contextReplies id ++ ids)
      (record_descendant statusId id acc).
Proof.
  intros Hid Hfresh. simpl.
  rewrite (bool_decide_eq_true_2 _ Hid), (proj2 (includes_false id acc) Hfresh).
  simpl. unfold replies_of, record_descendant.
  rewrite add_fresh by done.
  destruct (contextReplies !! id) as [replies|]; simpl; [| done].
  by rewrite forEach_unshift_reverse.
Qed.

Lemma descendants_loop_out_of_fuel id ids acc :
  id ≠ "" → id ∉ acc →
  getDescendantsIds_loop 0 statusId contextReplies (id :: ids) acc = None.
Proof.
  intros Hid Hfresh. simpl.
  by rewrite (bool_decide_eq_true_2 _ Hid),
    (proj2 (includes_false id acc) Hfresh).
Qed.

(** Both [break]s and the empty queue end the loop with the accumulated
    descendants, whatever is left in the queue. *)
Lemma descendants_loop_exit fuel ids acc :
  descendants_exit ids acc →
  getDescendantsIds_loop fuel statusId contextReplies ids acc = Some acc.
Proof.
  intros [-> | (id & rest & -> & [-> | Hin])]; destruct fuel; simpl; try done.
  all: destruct (bool_decide (id ≠ "")); simpl; [| done].
  all: by rewrite (proj2 (includes_true id acc) Hin).
Qed.

Lemma descendants_loop_cases ids acc :
  descendants_exit ids acc
  ∨ ∃ id rest, ids = id :: rest ∧ id ≠ "" ∧ id ∉ acc.
Proof.
  destruct ids as [|id rest]; [by left; left |].
  destruct (decide (id = "")) as [->|Hid]; [left; right; eauto |].
  destruct (decide (id ∈ acc)); [left; right; eauto |].
  right. eauto.
Qed.

(** Invariant rule for the descendant loop. *)
Lemma descendants_loop_invariant (I : list string → list string → Prop) :
  (∀ id ids acc, I (id :: ids) acc → id ≠ "" → id ∉ acc →
     I (replies_of contextReplies id ++ ids)
       (record_descendant statusId id acc)) →
  ∀ fuel ids acc r,
    I ids acc →
    getDescendantsIds_loop fuel statusId contextReplies ids acc = Some r →
    ∃ ids', I ids' r ∧ descendants_exit ids' r.
Proof.
  intros Hturn fuel.
  induction fuel as [|fuel IH]; intros ids acc r HI Hrun.
  all: destruct (descendants_loop_cases ids acc)
    as [Hexit | (id & rest & -> & Hid & Hfresh)].
  all: try (rewrite descendants_loop_exit in Hrun by done;
            injection Hrun as <-; by eauto).
  - by rewrite descendants_loop_out_of_fuel in Hrun.
  - rewrite descendants_loop_turn in Hrun by done.
    eapply IH; [| done]. by apply Hturn.
Qed.

(** More fuel does not change a result. *)
Lemma descendants_loop_fuel_mono fuel : ∀ k ids acc r,
  getDescendantsIds_loop fuel statusId contextReplies ids acc = Some r →
  getDescendantsIds_loop (fuel + k) statusId contextReplies ids acc = Some r.
Proof.
  induction fuel as [|fuel IH]; intros k ids acc r Hrun.
  all: destruct (descendants_loop_cases ids acc)
    as [Hexit | (id & rest & -> & Hid & Hfresh)].
  all: try (rewrite descendants_loop_exit in Hrun by done;
            by rewrite descendants_loop_exit).
  - by rewrite descendants_loop_out_of_fuel in Hrun.
  - rewrite descendants_loop_turn in Hrun by done.
    simpl Nat.add. rewrite descendants_loop_turn by done. by apply IH.
Qed.

(** Whatever the loop holds was reached from the focal id over reply
    links, and the focal id itself is never recorded. *)
Lemma descendants_loop_reachable fuel r :
  getDescendantsIds fuel statusId contextReplies = Some r →
  ∀ x, x ∈ r → rtc (child_link contextReplies) statusId x ∧ x ≠ statusId.
Proof.
  intros Hrun.
  apply (descendants_loop_invariant (λ ids acc,
    (∀ x, x ∈ ids → rtc (child_link contextReplies) statusId x) ∧
    (∀ x, x ∈ acc →
          rtc (child_link contextReplies) statusId x ∧ x ≠ statusId)))
    in Hrun.
  - by destruct Hrun as (ids' & [_ Hacc] & _).
  - intros id ids acc [Hids Hacc] _ _.
    assert (rtc (child_link contextReplies) statusId id) as Hid
      by (apply Hids; left).
    split.
    + intros x [Hx | Hx]%elem_of_app; [| apply Hids; by right].
      eapply rtc_r; [done |].
      unfold replies_of in Hx. unfold child_link.
      destruct (contextReplies !! id) as [replies|]; [eauto | by inversion Hx].
    + unfold record_descendant. case_bool_decide as Hne; [| done].
      intros x [Hx | ->%list_elem_of_singleton]%elem_of_app; [by apply Hacc |].
      split; [done | by intros ->].
  - split; [| by inversion 1].
    intros x ->%list_elem_of_singleton. apply rtc_refl.
Qed.
End descendants.

(** ** Termination of the descendant loop *)

Section descendants_termination.
Variable statusId : string.
Variable contextReplies : gmap string (list string).

Lemma elem_of_all_replies y :
  y ∈ all_replies contextReplies ↔ ∃ x, child_link contextReplies x y.
Proof.
  unfold all_replies, child_link. rewrite list_elem_of_bind. split.
  - intros ([x replies] & Hy & Hx%elem_of_map_to_list). eauto.
  - intros (x & replies & Hx & Hy). exists (x, replies).
    split; [done | by apply elem_of_map_to_list].
Qed.

Lemma replies_of_all_replies x y :
  y ∈ replies_of contextReplies x → y ∈ all_replies contextReplies.
Proof.
  unfold replies_of. intros Hy. apply elem_of_all_replies. exists x.
  unfold child_link.
  destruct (contextReplies !! x) as [replies|]; [eauto | by inversion Hy].
Qed.

(** When the focal id is the first of its own replies, it is at the head of
    the queue at every turn and nothing is ever recorded. *)
Lemma descendants_loop_diverges fuel : ∀ ids,
  first_reply_is_self contextReplies statusId →
  getDescendantsIds_loop fuel statusId contextReplies (statusId :: ids) []
  = None.
Proof.
  intros ids [Hne Hhead]. revert ids.
  induction fuel as [|fuel IH]; intros ids.
  - apply descendants_loop_out_of_fuel; [done | by inversion 1].
  - rewrite descendants_loop_turn; [| done | by inversion 1].
    unfold record_descendant. rewrite bool_decide_eq_false_2 by tauto.
    destruct (replies_of contextReplies statusId) as [|x replies];
      simplify_eq/=. apply IH.
Qed.

(** Once the first reply [x] of the focal id is recorded, every turn either
    records a new reply id or dequeues the focal id again, after which [x]
    is at the head of the queue and the loop is left. *)
Lemma descendants_loop_terminates_from fuel : ∀ ids acc x,
  NoDup acc →
  (∀ y, y ∈ acc → y ∈ all_replies contextReplies) →
  (∀ y, y ∈ ids → y = statusId ∨ y ∈ all_replies contextReplies) →
  head (replies_of contextReplies statusId) = Some x → x ∈ acc →
  List.length (all_replies contextReplies) + 1 ≤ fuel + List.length acc →
  is_Some (getDescendantsIds_loop fuel statusId contextReplies ids acc).
Proof.
  induction fuel as [|fuel IH]; intros ids acc x Hnd Hacc Hids Hhead Hx Hfuel.
  all: pose proof (submseteq_length _ _ (NoDup_submseteq _ _ Hnd Hacc)) as Hlen.
  { simpl in Hfuel. lia. }
  destruct (descendants_loop_cases ids acc)
    as [Hexit | (id & rest & -> & Hid & Hfresh)].
  { rewrite descendants_loop_exit by done. eauto. }
  rewrite descendants_loop_turn by done.
  unfold record_descendant. case_bool_decide as Hfocal.
  - assert (id ∈ all_replies contextReplies) as Hidin.
    { destruct (Hids id) as [-> | Hin]; [by left | done | done]. }
    apply (IH _ _ x).
    + apply NoDup_app. split_and!; [done | | apply NoDup_singleton].
      intros y Hy ->%list_elem_of_singleton. done.
    + intros y [Hy | ->%list_elem_of_singleton]%elem_of_app; eauto.
    + intros y [Hy%replies_of_all_replies | Hy]%elem_of_app; [by right |].
      apply Hids. by right.
    + done.
    + apply elem_of_app. by left.
    + rewrite length_app. simpl. lia.
  - assert (statusId = id) as <- by (destruct (decide (statusId = id)); tauto).
    destruct (replies_of contextReplies statusId) as [|x' replies];
      simplify_eq/=.
    rewrite descendants_loop_exit; [eauto |]. right. eauto.
Qed.

Lemma getDescendantsIds_terminates :
  ¬ first_reply_is_self contextReplies statusId →
  is_Some (getDescendantsIds (List.length (all_replies contextReplies) + 2)
             statusId contextReplies).
Proof.
  intros Hself. unfold getDescendantsIds.
  destruct (decide (statusId = "")) as [Hempty | Hne].
  { rewrite descendants_loop_exit; [eauto |]. right. eauto. }
  rewrite Nat.add_succ_r.
  rewrite descendants_loop_turn; [| done | by inversion 1].
  unfold record_descendant. rewrite bool_decide_eq_false_2 by tauto.
  destruct (replies_of contextReplies statusId) as [|x replies] eqn:Hreplies.
  { rewrite descendants_loop_exit; [eauto | by left]. }
  assert (x ≠ statusId) as Hx.
  { intros ->. apply Hself. split; [done |]. by rewrite Hreplies. }
  assert (∀ y, y ∈ x :: replies → y ∈ all_replies contextReplies) as Hall.
  { intros y Hy. apply (replies_of_all_replies statusId). by rewrite Hreplies. }
  simpl app. rewrite app_nil_r.
  destruct (decide (x = "")) as [-> | Hxne].
  { rewrite descendants_loop_exit; [eauto |]. right. eauto. }
  rewrite Nat.add_1_r.
  rewrite descendants_loop_turn; [| done | by inversion 1].
  unfold record_descendant. rewrite bool_decide_eq_true_2 by done.
  apply (descendants_loop_terminates_from _ _ _ x).
  - apply NoDup_singleton.
  - intros y ->%list_elem_of_singleton. apply Hall. by left.
  - intros y [Hy%replies_of_all_replies | Hy]%elem_of_app; [by right |].
    right. apply Hall. by right.
  - by rewrite Hreplies.
  - by left.
  - simpl. lia.
Qed.
End descendants_termination.

(** ** Reply trees *)

Section reply_trees.
(** Induction over a tree with the property available for every reply. *)
Lemma tree_forall_ind (P : tree → Prop) :
  (∀ i ks, Forall P ks → P (Node i ks)) → ∀ t, P t.
Proof.
  intros Hnode. fix IH 1. intros [i ks]. apply Hnode.
  induction ks as [|k ks IHks]; constructor; [apply IH | exact IHks].
Qed.

Lemma preorder_nodes t : preorder t = (nodes t).*1.
Proof.
  induction t as [i ks IH] using tree_forall_ind. simpl. f_equal.
  induction IH as [|k ks Hk _ IHks]; [done |].
  rewrite !bind_cons, fmap_app. by rewrite Hk, IHks.
Qed.

Lemma root_in_preorder t : root t ∈ preorder t.
Proof. destruct t as [i ks]. simpl. left. Qed.

Lemma preorder_kids t : preorder t = root t :: preorder_forest (kids t).
Proof. by destruct t. Qed.

Lemma tree_size_kids t : tree_size t = S (forest_size (kids t)).
Proof. by destruct t. Qed.

(** The replies of every item of a tree lie strictly below its root. *)
Lemma nodes_replies_below t :
  ∀ y replies z, (y, replies) ∈ nodes t → z ∈ replies →
                 z ∈ preorder_forest (kids t).
Proof.
  induction t as [i ks IH] using tree_forall_ind.
  intros y replies z Hy Hz. simpl in *. unfold preorder_forest.
  apply list_elem_of_bind.
  apply elem_of_cons in Hy as [[= -> ->] | Hy].
  - apply list_elem_of_fmap in Hz as (k & -> & Hk).
    exists k. split; [apply root_in_preorder | done].
  - apply list_elem_of_bind in Hy as (k & Hy & Hk).
    exists k. split; [| done].
    rewrite preorder_kids. right.
    eapply (proj1 (Forall_forall _ _) IH); done.
Qed.
End reply_trees.

Section descendants_of_trees.
Variable statusId : string.
Variable contextReplies : gmap string (list string).

(** With the roots of a forest of fresh items at the front of the queue,
    the loop records the whole forest in pre-order before it touches the
    rest of the queue. *)
Lemma descendants_loop_forest n : ∀ ts q acc k,
  forest_size ts ≤ n →
  NoDup (preorder_forest ts) →
  (∀ x, x ∈ preorder_forest ts → x ≠ "" ∧ x ≠ statusId ∧ x ∉ acc) →
  (∀ i replies, (i, replies) ∈ ts ≫= nodes →
                replies_of contextReplies i = replies) →
  getDescendantsIds_loop (forest_size ts + k) statusId contextReplies
    ((root <$> ts) ++ q) acc
  = getDescendantsIds_loop k statusId contextReplies q
      (acc ++ preorder_forest ts).
Proof.
  unfold preorder_forest, forest_size.
  induction n as [|n IH]; intros ts q acc k Hsize Hnd Hfresh Hidx.
  all: destruct ts as [|[i ks] ts]; [by rewrite app_nil_r | simpl in Hsize].
  { lia. }
  change (NoDup (i :: (ks ≫= preorder) ++ (ts ≫= preorder))) in Hnd.
  change (∀ x, x ∈ i :: (ks ≫= preorder) ++ (ts ≫= preorder) →
               x ≠ "" ∧ x ≠ statusId ∧ x ∉ acc) in Hfresh.
  change (∀ j replies,
            (j, replies) ∈ (i, root <$> ks) :: (ks ≫= nodes) ++ (ts ≫= nodes) →
            replies_of contextReplies j = replies) in Hidx.
  apply NoDup_cons in Hnd as [Hi Hnd].
  destruct (Hfresh i) as (Hne & Hfocal & Hacc); [by left |].
  simpl sum_list_with. simpl fmap. simpl app. simpl Nat.add.
  rewrite descendants_loop_turn by done.
  rewrite (Hidx i (root <$> ks)) by by left.
  unfold record_descendant. rewrite bool_decide_eq_true_2 by done.
  rewrite app_assoc, <- fmap_app, <- sum_list_with_app.
  rewrite IH.
  - rewrite bind_app, <- app_assoc. reflexivity.
  - rewrite sum_list_with_app. lia.
  - by rewrite bind_app.
  - rewrite bind_app. intros x Hx.
    destruct (Hfresh x) as (Hxne & Hxfocal & Hxacc); [by right |].
    split_and!; [done | done |].
    intros [Hin | ->%list_elem_of_singleton]%elem_of_app; done.
  - rewrite bind_app. intros j replies Hj. apply Hidx. by right.
Qed.
End descendants_of_trees.

Section descendants_of_reply_trees.
Variable childIndex : gmap string (list string).
Variable t : tree.
Hypothesis Htree : reply_tree childIndex t.

(** Below the root of a reply tree the result is the pre-order flattening
    of the replies of the root. *)
Lemma resolveDescendants_reply_tree k :
  resolveDescendants (tree_size t + k) (root t) childIndex
  = Some (preorder_forest (kids t)).
Proof.
  destruct Htree as (Hnd & Hne & Hidx).
  rewrite preorder_kids in Hnd, Hne.
  apply NoDup_cons in Hnd as [Hroot Hnd].
  unfold resolveDescendants, getDescendantsIds.
  rewrite tree_size_kids. simpl Nat.add.
  rewrite descendants_loop_turn; [| apply Hne; by left | by inversion 1].
  unfold record_descendant. rewrite bool_decide_eq_false_2 by tauto.
  rewrite (Hidx (root t) (root <$> kids t))
    by (destruct t; simpl; by left).
  rewrite (descendants_loop_forest _ _ (forest_size (kids t)));
    [by destruct k | done | done | |].
  - intros x Hx. split_and!; [apply Hne; by right | | by inversion 1].
    by intros ->.
  - intros i replies Hi. apply Hidx. destruct t. simpl. by right.
Qed.

(** The items below the root are the ids that are reached from the root
    over one or more reply links. *)
Lemma reply_tree_reachable x :
  tc (child_link childIndex) (root t) x → x ∈ preorder_forest (kids t).
Proof.
  destruct Htree as (_ & _ & Hidx).
  assert (∀ y z, y ∈ preorder t → child_link childIndex y z →
                 z ∈ preorder_forest (kids t)) as Hclosed.
  { intros y z Hy (replies & Hreplies & Hz).
    rewrite preorder_nodes in Hy.
    apply list_elem_of_fmap in Hy as ([y' replies'] & -> & Hy). simpl in *.
    eapply nodes_replies_below; [done |].
    rewrite <- (Hidx _ _ Hy). unfold replies_of. by rewrite Hreplies. }
  intros Hreach. pose proof (root_in_preorder t) as Hroot.
  induction Hreach as [y z Hyz | y z x Hyz _ IH]; [by eapply Hclosed |].
  apply IH. rewrite preorder_kids. right. by eapply Hclosed.
Qed.
End descendants_of_reply_trees.

Lemma ranked_children_acyclic (rank : string → nat)
    (childIndex : gmap string (list string)) :
  (∀ x y, child_link childIndex x y → rank x < rank y) →
  acyclic_children childIndex.
Proof.
  intros Hrank.
  assert (∀ x y, tc (child_link childIndex) x y → rank x < rank y) as Htc.
  { induction 1 as [x y Hxy | x y z Hxy _ IH]; [by apply Hrank |].
    etrans; [by apply Hrank | done]. }
  intros x Hxx%Htc. lia.
Qed.

Lemma resolveDescendants_fuel_agree focalId childIndex n m r1 r2 :
  resolveDescendants n focalId childIndex = Some r1 →
  resolveDescendants m focalId childIndex = Some r2 → r1 = r2.
Proof.
  unfold resolveDescendants, getDescendantsIds.
  intros H1%(descendants_loop_fuel_mono _ _ _ m)
         H2%(descendants_loop_fuel_mono _ _ _ n).
  rewrite (Nat.add_comm m n) in H2. congruence.
Qed.

Lemma scenario_tree_reply_tree : reply_tree scenario_children scenario_tree.
Proof.
  split_and!.
  - compute_done.
  - intros x Hx.
    assert (Forall (λ y, y ≠ "") (preorder scenario_tree)) as Hall
      by compute_done.
    by apply (proj1 (Forall_forall _ _) Hall).
  - intros i replies Hi.
    assert (Forall (λ n, replies_of scenario_children n.1 = n.2)
              (nodes scenario_tree)) as Hall
      by compute_done.
    by apply (proj1 (Forall_forall _ _) Hall (i, replies)).
Qed.



Lemma shared_reply_children_acyclic : acyclic_children shared_reply_children.
Proof.
  set (rank := λ s : string,
         if decide (s = "A") then 0 else if decide (s = "D") then 2 else 1).
  apply (ranked_children_acyclic rank).
  intros x y (replies & Hreplies & Hy).
  unfold shared_reply_children in Hreplies.
  rewrite !lookup_insert in Hreplies.
  repeat case_decide; simplify_eq.
  all: repeat (apply elem_of_cons in Hy as [-> | Hy]).
  all: try by inversion Hy.
  all: vm_compute; lia.
Qed.

(** C2, as stated, fails: in an index without cycles in which D is listed
    under both B and C, the second D that is dequeued ends the loop, and E,
    a reply to the focal id that is still in the queue, is never
    returned. *)
Lemma resolveDescendants_break_drops_pending :
  ¬ (∀ (focalId : string) (childIndex : gmap string (list string)),
       acyclic_children childIndex →
       ∃ fuel r, resolveDescendants fuel focalId childIndex = Some r
                 ∧ ∀ x, tc (child_link childIndex) focalId x → x ∈ r).
Proof.
  intros Hclaim.
  destruct (Hclaim "A" shared_reply_children shared_reply_children_acyclic)
    as (fuel & r & Hrun & Hall).
  assert (r = ["B"; "D"; "C"]) as ->.
  { eapply resolveDescendants_fuel_agree; [exact Hrun |].
    instantiate (1 := 4). by vm_compute. }
  assert ("E" ∉ ["B"; "D"; "C"]) as Hout by compute_done.
  apply Hout, Hall, tc_once.
  exists ["B"; "C"; "E"]. split; [by vm_compute | compute_done].
Qed.

(** C2, amended. When the child index is tree-shaped below the focal id,
    the ids that [resolveDescendants] returns are exactly the ids reached
    from the focal id over one or more reply links, each of them once.
    When the id at the head of the queue is already included, the loop is
    left at once and what is still in the queue is not processed. *)
Theorem resolveDescendants_tree_complete :
  (∀ (childIndex : gmap string (list string)) (t : tree),
     reply_tree childIndex t →
     ∃ r, (∀ k, resolveDescendants (tree_size t + k) (root t) childIndex
                = Some r)
          ∧ NoDup r
          ∧ ∀ x, x ∈ r ↔ tc (child_link childIndex) (root t) x)
  ∧ (∀ fuel statusId contextReplies id ids acc,
       id ∈ acc →
       getDescendantsIds_loop fuel statusId contextReplies (id :: ids) acc
       = Some acc).
Proof.
  split.
  - intros childIndex t Htree.
    exists (preorder_forest (kids t)). split_and!.
    + intros k. by apply resolveDescendants_reply_tree.
    + destruct Htree as (Hnd & _). rewrite preorder_kids in Hnd.
      by apply NoDup_cons in Hnd as [_ Hnd].
    + intros x. split; [| by apply reply_tree_reachable].
      intros Hx.
      pose proof (resolveDescendants_reply_tree childIndex t Htree 0) as Hrun.
      destruct (descendants_loop_reachable _ _ _ _ Hrun x Hx) as [Hreach Hne].
      apply rtc_tc in Hreach as [Heq | Htc]; [by destruct Hne | done].
  - intros fuel statusId contextReplies id ids acc Hin.
    apply descendants_loop_exit. right. eauto.
Qed.

Lemma resolveDescendants_tree_complete_witness :
  ∃ r, (∀ k, resolveDescendants (tree_size scenario_tree + k)
               (root scenario_tree) scenario_children = Some r)
       ∧ NoDup r
       ∧ ∀ x, x ∈ r ↔ tc (child_link scenario_children) (root scenario_tree) x.
Proof.
  apply (proj1 resolveDescendants_tree_complete scenario_children scenario_tree).
  apply scenario_tree_reply_tree.
Defined.

Lemma resolveThread_fuel_mono fuel k focalId parentIndex childIndex t :
  resolveThread fuel focalId parentIndex childIndex = Some t →
  resolveThread (fuel + k) focalId parentIndex childIndex = Some t.
Proof.
  destruct t as [a d].
  intros (rawA & rawD & HA & HD & Hcd)%resolveThread_inv.
  apply (resolveAncestors_fuel_mono _ _ _ k) in HA.
  apply (descendants_loop_fuel_mono _ _ _ k) in HD.
  unfold resolveThread, Thread_selector.
  unfold resolveAncestors in HA. unfold getDescendantsIds.
  rewrite HA, HD. simpl. by rewrite Hcd.
Qed.

Lemma resolveThread_terminates focalId parentIndex childIndex :
  ¬ first_reply_is_self childIndex focalId →
  is_Some (resolveThread
             (size parentIndex + (List.length (all_replies childIndex) + 2))
             focalId parentIndex childIndex).
Proof.
  intros Hself.
  destruct (resolveAncestors_terminates parentIndex focalId) as [rawA HA].
  destruct (getDescendantsIds_terminates focalId childIndex Hself)
    as [rawD HD].
  apply (resolveAncestors_fuel_mono _ _ _
           (List.length (all_replies childIndex) + 2)) in HA.
  apply (descendants_loop_fuel_mono _ _ _ (size parentIndex)) in HD.
  rewrite (Nat.add_comm _ (size parentIndex)) in HD.
  unfold resolveThread, Thread_selector.
  unfold resolveAncestors in HA. unfold getDescendantsIds.
  rewrite HA, HD. simpl. eauto.
Qed.

(** C4. Whenever [resolveThread] returns a pair, the two sequences have no
    id in common and neither of them contains the focal id, whatever the two
    indexes are; and it does return a pair, for every parent index, unless
    the focal id is the first of its own replies in the child index. *)
Theorem resolveThread_disjoint_without_focal :
  ∀ (focalId : string) (parentIndex : gmap string string)
    (childIndex : gmap string (list string)),
    (∀ fuel a d,
       resolveThread fuel focalId parentIndex childIndex = Some (a, d) →
       (focalId ∉ a) ∧ (focalId ∉ d)
       ∧ (∀ x, x ∈ a → x ∉ d) ∧ (∀ x, x ∈ d → x ∉ a))
    ∧ (¬ first_reply_is_self childIndex focalId →
       ∃ a d, ∀ k,
         resolveThread
           (size parentIndex + (List.length (all_replies childIndex) + 2) + k)
           focalId parentIndex childIndex = Some (a, d)).
Proof.
  intros focalId parentIndex childIndex. split.
  - intros fuel a d
      (rawA & rawD & _ & _ & [Ha Hd]%crossDedup_spec)%resolveThread_inv.
    split_and!.
    + intros (_ & Hne & _)%Ha. done.
    + intros (_ & Hne & _)%Hd. done.
    + intros x Hxa (_ & _ & Hxd)%Hd. done.
    + intros x (_ & _ & Hxd)%Hd Hxa. done.
  - intros Hself.
    destruct (resolveThread_terminates focalId parentIndex childIndex Hself)
      as [[a d] Hrun].
    exists a, d. intros k. by apply resolveThread_fuel_mono.
Qed.

Lemma resolveThread_disjoint_witness :
  resolveThread 2 "C" inconsistent_parents inconsistent_children
    = Some ([], ["B"])
  ∧ ("C" ∉ ([] : list string)) ∧ ("C" ∉ ["B"])
  ∧ (∀ x : string, x ∈ ([] : list string) → x ∉ ["B"])
  ∧ (∀ x : string, x ∈ ["B"] → x ∉ ([] : list string)).
Proof.
  split; [vm_compute; reflexivity |].
  apply (proj1 (resolveThread_disjoint_without_focal "C"
                  inconsistent_parents inconsistent_children) 2).
  vm_compute; reflexivity.
Defined.

(** C1, evaluated where it fails. When the focal id A is listed among its
    own replies, no amount of fuel lets the loop finish: A is dequeued, is
    not recorded because it is the focal id, and is pushed again.  This
    happens exactly when the focal id is the first of its own replies; in
    every other case the loop returns within as many turns as the child
    index lists reply ids, plus two. *)
Theorem resolveDescendants_self_reply_never_returns :
  (∀ fuel, resolveDescendants fuel "A" self_reply_children = None)
  ∧ (∀ (focalId : string) (childIndex : gmap string (list string)),
       first_reply_is_self childIndex focalId →
       ∀ fuel, resolveDescendants fuel focalId childIndex = None)
  ∧ (∀ (focalId : string) (childIndex : gmap string (list string)),
       ¬ first_reply_is_self childIndex focalId →
       ∃ r, ∀ k,
         resolveDescendants (List.length (all_replies childIndex) + 2 + k)
           focalId childIndex = Some r).
Proof.
  split_and!.
  - intros fuel. apply descendants_loop_diverges. by vm_compute.
  - intros focalId childIndex Hself fuel. by apply descendants_loop_diverges.
  - intros focalId childIndex Hself.
    destruct (getDescendantsIds_terminates focalId childIndex Hself)
      as [r Hr].
    exists r. intros k. by apply descendants_loop_fuel_mono.
Qed.

(** C10. Every id that [resolveDescendants] returns is reached from the
    focal id by following reply links of the child index: zero or more, and
    in fact at least one, since the focal id itself is never returned. *)
Theorem resolveDescendants_sound :
  ∀ fuel (focalId : string) (childIndex : gmap string (list string)) r,
    resolveDescendants fuel focalId childIndex = Some r →
    ∀ x, x ∈ r →
      rtc (child_link childIndex) focalId x
      ∧ tc (child_link childIndex) focalId x.
Proof.
  intros fuel focalId childIndex r Hrun x Hx.
  destruct (descendants_loop_reachable _ _ _ _ Hrun x Hx) as [Hreach Hne].
  split; [done |].
  apply rtc_tc in Hreach as [-> | Htc]; done.
Qed.

Lemma resolveDescendants_sound_witness :
  resolveDescendants 4 "A" scenario_children = Some ["B"; "D"; "C"]
  ∧ rtc (child_link scenario_children) "A" "D"
  ∧ tc (child_link scenario_children) "A" "D".
Proof.
  split; [vm_compute; reflexivity |].
  apply (resolveDescendants_sound 4 "A" scenario_children ["B"; "D"; "C"]).
  - vm_compute; reflexivity.
  - right; left.
Defined.

(** * Further properties of the selectors *)

Lemma filter_all_true {A : Type} (P : A → Prop) `{∀ x, Decision (P x)}
    (l : list A) :
  (∀ x, x ∈ l → P x) → filter P l = l.
Proof.
  induction l as [|x l IH]; intros Hall; [done |].
  rewrite filter_cons_True by (apply Hall; left).
  f_equal. apply IH. intros y Hy. apply Hall. by right.
Qed.

Lemma getDescendantsIds_NoDup fuel statusId contextReplies r :
  getDescendantsIds fuel statusId contextReplies = Some r → NoDup r.
Proof.
  intros Hrun.
  apply (descendants_loop_invariant statusId contextReplies
           (λ _ acc, NoDup acc)) in Hrun.
  - by destruct Hrun as (_ & Hnd & _).
  - intros id ids acc Hnd _ Hfresh. unfold record_descendant.
    case_bool_decide; [| done].
    apply NoDup_app. split_and!; [done | | apply NoDup_singleton].
    intros y Hy ->%list_elem_of_singleton. done.
  - apply NoDup_nil_2.
Qed.

(** X1. The descendants are an ordered set without the focal id and without
    falsy ids, for every child index. *)
Theorem resolveDescendants_ordered_set :
  ∀ fuel (focalId : string) (childIndex : gmap string (list string)) r,
    resolveDescendants fuel focalId childIndex = Some r →
    NoDup r ∧ (focalId ∉ r) ∧ ("" ∉ r).
Proof.
  intros fuel focalId childIndex r Hrun.
  split_and!.
  - by eapply getDescendantsIds_NoDup.
  - intros Hin.
    by destruct (descendants_loop_reachable _ _ _ _ Hrun _ Hin) as [_ Hne].
  - apply (descendants_loop_invariant focalId childIndex
             (λ _ acc, "" ∉ acc)) in Hrun.
    + by destruct Hrun as (_ & Hne & _).
    + intros id ids acc Hacc Hid _. unfold record_descendant.
      case_bool_decide; [| done].
      intros [Hin | Heq%list_elem_of_singleton]%elem_of_app; [done |].
      by symmetry in Heq.
    + by inversion 1.
Qed.

Lemma resolveDescendants_ordered_set_witness :
  NoDup ["B"; "D"; "C"] ∧ ("A" ∉ ["B"; "D"; "C"]) ∧ ("" ∉ ["B"; "D"; "C"]).
Proof.
  apply (resolveDescendants_ordered_set 4 "A" shared_reply_children).
  vm_compute; reflexivity.
Defined.

(** X3. The ancestors form a path of the parent index, for every index: each id
    is recorded as the parent of the id behind it, the last id is the parent
    of the focal id, no id is falsy, and the walk stopped at the first id
    because it has no truthy parent or because its parent is already in the
    sequence.  The sequence is empty exactly when the focal id has no truthy
    parent. *)
Theorem resolveAncestors_parent_path :
  ∀ fuel (focalId : string) (parentIndex : gmap string string) r,
    resolveAncestors fuel focalId parentIndex = Some r →
    linked parentIndex r
    ∧ ("" ∉ r)
    ∧ (∀ y, last r = Some y → parent_of parentIndex focalId y)
    ∧ (∀ x, head r = Some x →
            truthy (parentIndex !! x) = false
            ∨ ∃ y, parent_of parentIndex x y ∧ y ∈ r)
    ∧ (r = [] ↔ truthy (parentIndex !! focalId) = false).
Proof.
  intros fuel focalId parentIndex r Hrun.
  apply (ancestors_loop_invariant parentIndex (λ id acc,
    linked parentIndex acc ∧ ("" ∉ acc)
    ∧ id = parentIndex !! default focalId (head acc)
    ∧ (∀ y, last acc = Some y → parent_of parentIndex focalId y)
    ∧ (acc = [] ∨ truthy (parentIndex !! focalId) = true))) in Hrun.
  - destruct Hrun as (_ & id' & (Hlinked & Hne & Hid & Hlast & Hstart) & Hexit).
    split_and!; [done | done | done | |].
    + intros x Hx. rewrite Hx in Hid. simpl in Hid. subst id'.
      destruct Hexit as [Hfalsy | (i & Hi & Hin)]; [by left | right; eauto].
    + split.
      * intros ->. simpl in Hid. subst id'.
        destruct Hexit as [Hfalsy | (i & _ & Hin)]; [done | by inversion Hin].
      * intros Hfalsy. destruct Hstart as [-> | Htrue]; [done | congruence].
  - intros i acc (Hlinked & Hne & Hid & Hlast & Hstart) _ Hi Hfresh.
    split_and!.
    + destruct acc as [|h acc]; [apply linked_one |].
      apply linked_cons; [| done]. simpl in Hid. by symmetry.
    + intros [Heq | Hin]%elem_of_cons; [by symmetry in Heq | done].
    + done.
    + destruct acc as [|h acc].
      * simpl. intros y [= <-]. simpl in Hid. by symmetry.
      * intros y Hy. apply Hlast. exact Hy.
    + right. destruct acc as [|h acc].
      * simpl in Hid. rewrite <- Hid. simpl. by apply bool_decide_eq_true.
      * by destruct Hstart.
  - split_and!; [apply linked_nil | by inversion 1 | done | done | by left].
  - apply NoDup_nil_2.
Qed.

Lemma resolveAncestors_parent_path_witness :
  linked cyclic_parents ["A"; "B"]
  ∧ ("" ∉ ["A"; "B"])
  ∧ (∀ y, last ["A"; "B"] = Some y → parent_of cyclic_parents "A" y)
  ∧ (∀ x, head ["A"; "B"] = Some x →
          truthy (cyclic_parents !! x) = false
          ∨ ∃ y, parent_of cyclic_parents x y ∧ y ∈ ["A"; "B"])
  ∧ (["A"; "B"] = [] ↔ truthy (cyclic_parents !! "A") = false).
Proof.
  apply (resolveAncestors_parent_path 2 "A" cyclic_parents).
  vm_compute; reflexivity.
Defined.

(** ** The cross-deduplication of the component *)

Section cross_deduplication.
Variable focalId : string.
Variable parentIndex : gmap string string.
Variable childIndex : gmap string (list string).
Variables (fuel : nat) (a d : list string).
Hypothesis Hrun :
  resolveThread fuel focalId parentIndex childIndex = Some (a, d).

(** The descendants never hold the focal id or an id that is left among the
    ancestors, so neither [delete] nor [subtract] removes anything. *)
Lemma resolveThread_descendants_raw :
  resolveDescendants fuel focalId childIndex = Some d.
Proof.
  destruct (resolveThread_inv _ _ _ _ _ _ Hrun)
    as (rawA & rawD & _ & HD & Hcd).
  rewrite HD. f_equal.
  unfold crossDedup in Hcd. injection Hcd as _ <-. symmetry.
  unfold OrderedSet.subtract at 1. rewrite filter_all_true.
  - unfold OrderedSet.delete. apply filter_all_true.
    intros x Hx ->.
    by destruct (descendants_loop_reachable _ _ _ _ HD _ Hx) as [_ Hne].
  - intros x [_ Hx]%elem_of_delete [Hout _]%elem_of_subtract. done.
Qed.

Lemma resolveThread_ancestors_raw :
  ∃ rawA,
    resolveAncestors fuel focalId parentIndex = Some rawA
    ∧ NoDup rawA
    ∧ a = filter (λ x, x ∉ d) (filter (λ x, x ≠ focalId) rawA).
Proof.
  pose proof resolveThread_descendants_raw as HD'.
  destruct (resolveThread_inv _ _ _ _ _ _ Hrun)
    as (rawA & rawD & HA & HD & Hcd).
  assert (rawD = d) as -> by congruence.
  exists rawA. split_and!; [done | |].
  - by destruct (resolveAncestors_values _ _ _ _ HA).
  - unfold crossDedup in Hcd. by injection Hcd as <- _.
Qed.
End cross_deduplication.

(** X4. The descendants that [resolveThread] returns are the raw descendants,
    unchanged and in the same order: the cross-deduplication only ever
    removes ids from the ancestors. *)
Theorem resolveThread_keeps_descendants :
  ∀ fuel (focalId : string) (parentIndex : gmap string string)
    (childIndex : gmap string (list string)) a d,
    resolveThread fuel focalId parentIndex childIndex = Some (a, d) →
    resolveDescendants fuel focalId childIndex = Some d.
Proof. intros. by eapply resolveThread_descendants_raw. Qed.

Lemma resolveThread_keeps_descendants_witness :
  resolveDescendants 2 "C" inconsistent_children = Some ["B"].
Proof.
  apply (resolveThread_keeps_descendants 2 "C" inconsistent_parents
           inconsistent_children [] ["B"]).
  vm_compute; reflexivity.
Defined.

(** X5. The ancestors that [resolveThread] returns are the raw ancestors in
    their order with some ids left out, and an id is left out only if it is
    the focal id or is returned among the descendants. *)
Theorem resolveThread_ancestors_sublist :
  ∀ fuel (focalId : string) (parentIndex : gmap string string)
    (childIndex : gmap string (list string)) a d,
    resolveThread fuel focalId parentIndex childIndex = Some (a, d) →
    ∃ rawA,
      resolveAncestors fuel focalId parentIndex = Some rawA
      ∧ a `sublist_of` rawA
      ∧ ∀ x, x ∈ rawA → x ∈ a ∨ x = focalId ∨ x ∈ d.
Proof.
  intros fuel focalId parentIndex childIndex a d Hrun.
  destruct (resolveThread_ancestors_raw _ _ _ _ _ _ Hrun)
    as (rawA & HA & _ & ->).
  exists rawA. split_and!; [done | |].
  - etrans; apply sublist_filter.
  - intros x Hx.
    destruct (decide (x = focalId)) as [|Hne]; [by right; left |].
    destruct (decide (x ∈ d)) as [|Hout]; [by right; right |].
    left. apply list_elem_of_filter. split; [done |].
    apply (list_elem_of_filter (λ z, z ≠ focalId)). done.
Qed.

Lemma resolveThread_ancestors_sublist_witness :
  ∃ rawA,
    resolveAncestors 2 "A" cyclic_parents = Some rawA
    ∧ ["B"] `sublist_of` rawA
    ∧ ∀ x : string, x ∈ rawA → x ∈ ["B"] ∨ x = "A" ∨ x ∈ ([] : list string).
Proof.
  apply (resolveThread_ancestors_sublist 2 "A" cyclic_parents ∅ ["B"] []).
  vm_compute; reflexivity.
Defined.

Lemma renderChildren_keyed focusedStatusId (ids : list string) :
  omap Thread.key_of (Thread.renderChildren focusedStatusId ids)
  = filter (λ id, endsWith id "-tombstone" = false) ids.
Proof.
  unfold Thread.renderChildren.
  induction ids as [|id ids IH]; [done |].
  rewrite fmap_cons, filter_cons.
  destruct (endsWith id "-tombstone") eqn:Hends.
  - rewrite decide_False by done. exact IH.
  - rewrite decide_True by done.
    destruct (startsWith id "末pending-"); simpl; f_equal; exact IH.
Qed.

(** X6. With the two sequences of [resolveThread], the ids from which the
    children are rendered (ancestors, focused status, descendants) are
    pairwise distinct, and so are the keys of the children that have a key,
    that is of all children but the wrappers of tombstones. *)
Theorem resolveThread_children_keys_NoDup :
  ∀ fuel (focalId : string) (parentIndex : gmap string string)
    (childIndex : gmap string (list string)) a d,
    resolveThread fuel focalId parentIndex childIndex = Some (a, d) →
    NoDup (Thread.children_keys focalId a d)
    ∧ NoDup (omap Thread.key_of (Thread.children focalId a d)).
Proof.
  intros fuel focalId parentIndex childIndex a d Hrun.
  assert (NoDup (Thread.children_keys focalId a d)) as Hids.
  { pose proof (resolveThread_descendants_raw _ _ _ _ _ _ Hrun) as HD.
    destruct (resolveThread_ancestors_raw _ _ _ _ _ _ Hrun)
      as (rawA & HA & Hnd & ->).
    unfold Thread.children_keys.
    apply NoDup_app. split_and!.
    - by do 2 apply NoDup_filter.
    - intros x [Hout [Hne _]%(list_elem_of_filter (λ z, z ≠ focalId))]%list_elem_of_filter.
      intros [->%list_elem_of_singleton | Hin]%elem_of_app; done.
    - simpl. apply NoDup_cons. split; [| by eapply getDescendantsIds_NoDup].
      intros Hin.
      by destruct (descendants_loop_reachable _ _ _ _ HD _ Hin) as [_ Hne]. }
  split; [done |].
  eapply sublist_NoDup; [exact Hids |].
  unfold Thread.children, Thread.children_keys.
  rewrite !omap_app, !renderChildren_keyed. simpl.
  apply sublist_app; [apply sublist_filter |].
  apply sublist_skip, sublist_filter.
Qed.

Lemma resolveThread_children_keys_witness :
  NoDup (Thread.children_keys "B" ["A"] ["D"])
  ∧ NoDup (omap Thread.key_of (Thread.children "B" ["A"] ["D"])).
Proof.
  apply (resolveThread_children_keys_NoDup 4 "B" scenario_parents
           scenario_children).
  vm_compute; reflexivity.
Defined.

(** ** Keyboard navigation between the rendered children *)

Section index_of.
Implicit Types (l : list string) (id : string) (i : Z).

Lemma indexOf_from_notin id l i : id ∉ l → indexOf_from id l i = (-1)%Z.
Proof.
  revert i. induction l as [|x l IH]; intros i Hout; [done |].
  simpl. apply not_elem_of_cons in Hout as [Hne Hout].
  rewrite decide_False by done. by apply IH.
Qed.

Lemma indexOf_from_in id l i :
  id ∈ l →
  indexOf_from id l i = (i + indexOf id l)%Z
  ∧ (0 ≤ indexOf id l < Z.of_nat (List.length l))%Z
  ∧ l !! Z.to_nat (indexOf id l) = Some id.
Proof.
  unfold indexOf. revert i.
  induction l as [|x l IH]; intros i Hin; [by inversion Hin |].
  simpl. destruct (decide (x = id)) as [-> | Hne].
  { split_and!; [lia | lia | simpl; lia | done]. }
  apply elem_of_cons in Hin as [-> | Hin]; [done |].
  destruct (IH (i + 1)%Z Hin) as (Hi & _ & _).
  destruct (IH (0 + 1)%Z Hin) as (H1 & Hbound & Hlookup).
  rewrite Hi, H1. split_and!; [lia | lia | lia |].
  replace (Z.to_nat (0 + 1 + indexOf_from id l 0))
    with (S (Z.to_nat (indexOf_from id l 0))) by lia.
  done.
Qed.

Lemma indexOf_app_l id l1 l2 :
  id ∈ l1 → indexOf id (l1 ++ l2) = indexOf id l1.
Proof.
  unfold indexOf. generalize 0%Z.
  induction l1 as [|x l1 IH]; intros i Hin; [by inversion Hin |].
  simpl. destruct (decide (x = id)); [done |].
  apply elem_of_cons in Hin as [-> | Hin]; [done |]. by apply IH.
Qed.

Lemma indexOf_from_app_r id l1 l2 i :
  id ∉ l1 →
  indexOf_from id (l1 ++ l2) i
  = indexOf_from id l2 (i + Z.of_nat (List.length l1))%Z.
Proof.
  revert i. induction l1 as [|x l1 IH]; intros i Hout; simpl.
  { f_equal. lia. }
  apply not_elem_of_cons in Hout as [Hne Hout].
  rewrite decide_False by done. rewrite IH by done. f_equal. lia.
Qed.
End index_of.

(** Position of a rendered id among the children, and where the two handlers
    move from it. *)
Lemma children_keys_position statusId ancestorsIds descendantsIds id :
  statusId ∉ ancestorsIds →
  id ∈ Thread.children_keys statusId ancestorsIds descendantsIds →
  let position :=
    indexOf id (Thread.children_keys statusId ancestorsIds descendantsIds) in
  Thread.handleMoveUp (Some statusId) ancestorsIds descendantsIds id
  = (position - 1)%Z
  ∧ Thread.handleMoveDown (Some statusId) ancestorsIds descendantsIds id
    = (position + 1)%Z.
Proof.
  intros Hfocal Hin. unfold Thread.children_keys in *. simpl.
  unfold Thread.handleMoveUp, Thread.handleMoveDown.
  destruct (decide (Some id = Some statusId)) as [[= ->] | Hne].
  { unfold indexOf. rewrite indexOf_from_app_r by done. simpl.
    rewrite decide_True by done. split; lia. }
  assert (id ≠ statusId) as Hne' by congruence.
  destruct (decide (id ∈ ancestorsIds)) as [Ha | Ha].
  - rewrite indexOf_app_l by done.
    destruct (indexOf_from_in id ancestorsIds 0 Ha) as (_ & Hbound & _).
    rewrite !decide_False by lia. done.
  - apply elem_of_app in Hin as [Hin | Hin]; [done |].
    apply elem_of_cons in Hin as [-> | Hd]; [done |].
    assert (indexOf id ancestorsIds = (-1)%Z) as E1
      by apply (indexOf_from_notin _ _ _ Ha).
    assert (indexOf id (ancestorsIds ++ statusId :: descendantsIds)
            = (Z.of_nat (List.length ancestorsIds) + 1
               + indexOf id descendantsIds)%Z) as E2.
    { unfold indexOf at 1. rewrite indexOf_from_app_r by done. simpl.
      rewrite decide_False by done.
      destruct (indexOf_from_in id descendantsIds
                  (0 + Z.of_nat (List.length ancestorsIds) + 1)%Z Hd)
        as (-> & _ & _).
      lia. }
    rewrite E1, E2. rewrite !decide_True by done. split; lia.
Qed.

(** X9. From a rendered child, [handleMoveUp] selects the index just before its
    position in the list of children and [handleMoveDown] the index just
    behind it, provided the focused status is not among the ancestors.  The
    handlers do not clamp: the first child moves up to -1 and the last one
    moves down to the number of children. *)
Theorem handleMove_adjacent :
  ∀ (statusId : string) (ancestorsIds descendantsIds : list string)
    (id : string),
    statusId ∉ ancestorsIds →
    id ∈ Thread.children_keys statusId ancestorsIds descendantsIds →
    ∃ position : nat,
      Thread.children_keys statusId ancestorsIds descendantsIds !! position
        = Some id
      ∧ indexOf id (Thread.children_keys statusId ancestorsIds descendantsIds)
        = Z.of_nat position
      ∧ Thread.handleMoveUp (Some statusId) ancestorsIds descendantsIds id
        = (Z.of_nat position - 1)%Z
      ∧ Thread.handleMoveDown (Some statusId) ancestorsIds descendantsIds id
        = (Z.of_nat position + 1)%Z.
Proof.
  intros statusId ancestorsIds descendantsIds id Hfocal Hin.
  destruct (children_keys_position _ _ _ _ Hfocal Hin) as [Hup Hdown].
  destruct (indexOf_from_in id _ 0 Hin) as (_ & Hbound & Hlookup).
  exists (Z.to_nat
            (indexOf id
               (Thread.children_keys statusId ancestorsIds descendantsIds))).
  rewrite Z2Nat.id by lia. done.
Qed.

Lemma handleMove_adjacent_witness :
  ∃ position : nat,
    Thread.children_keys "B" ["A"] ["D"] !! position = Some "D"
    ∧ indexOf "D" (Thread.children_keys "B" ["A"] ["D"]) = Z.of_nat position
    ∧ Thread.handleMoveUp (Some "B") ["A"] ["D"] "D"
      = (Z.of_nat position - 1)%Z
    ∧ Thread.handleMoveDown (Some "B") ["A"] ["D"] "D"
      = (Z.of_nat position + 1)%Z.
Proof.
  apply (handleMove_adjacent "B" ["A"] ["D"] "D"); compute_done.
Defined.

(** X10. With the two sequences of [resolveThread], the handlers move to the
    neighbours of every rendered child. *)
Theorem handleMove_adjacent_in_thread :
  ∀ fuel (focalId : string) (parentIndex : gmap string string)
    (childIndex : gmap string (list string)) a d id,
    resolveThread fuel focalId parentIndex childIndex = Some (a, d) →
    id ∈ Thread.children_keys focalId a d →
    Thread.handleMoveUp (Some focalId) a d id
    = (indexOf id (Thread.children_keys focalId a d) - 1)%Z
    ∧ Thread.handleMoveDown (Some focalId) a d id
      = (indexOf id (Thread.children_keys focalId a d) + 1)%Z.
Proof.
  intros fuel focalId parentIndex childIndex a d id Hrun Hin.
  apply children_keys_position; [| done].
  destruct (resolveThread_ancestors_raw _ _ _ _ _ _ Hrun)
    as (rawA & _ & _ & ->).
  intros [_ [Hne _]%(list_elem_of_filter (λ z, z ≠ focalId))]%list_elem_of_filter.
  done.
Qed.

Lemma handleMove_adjacent_in_thread_witness :
  Thread.handleMoveUp (Some "B") ["A"] ["D"] "A"
  = (indexOf "A" (Thread.children_keys "B" ["A"] ["D"]) - 1)%Z
  ∧ Thread.handleMoveDown (Some "B") ["A"] ["D"] "A"
    = (indexOf "A" (Thread.children_keys "B" ["A"] ["D"]) + 1)%Z.
Proof.
  apply (handleMove_adjacent_in_thread 4 "B" scenario_parents
           scenario_children).
  - vm_compute; reflexivity.
  - compute_done.
Defined.

(** X11. An id that is not rendered is treated like the focused status: the
    handlers select the last ancestor and the first descendant. *)
Theorem handleMove_unknown_id :
  ∀ (statusId : string) (ancestorsIds descendantsIds : list string)
    (id : string),
    id ∉ Thread.children_keys statusId ancestorsIds descendantsIds →
    Thread.handleMoveUp (Some statusId) ancestorsIds descendantsIds id
    = (Z.of_nat (List.length ancestorsIds) - 1)%Z
    ∧ Thread.handleMoveDown (Some statusId) ancestorsIds descendantsIds id
      = (Z.of_nat (List.length ancestorsIds) + 1)%Z
    ∧ Thread.handleMoveUp (Some statusId) ancestorsIds descendantsIds id
      = Thread.handleMoveUp (Some statusId) ancestorsIds descendantsIds statusId
    ∧ Thread.handleMoveDown (Some statusId) ancestorsIds descendantsIds id
      = Thread.handleMoveDown (Some statusId) ancestorsIds descendantsIds
          statusId.
Proof.
  intros statusId ancestorsIds descendantsIds id Hout.
  unfold Thread.children_keys in Hout.
  apply not_elem_of_app in Hout as [Ha Hout].
  apply not_elem_of_cons in Hout as [Hne Hd].
  unfold Thread.handleMoveUp, Thread.handleMoveDown, indexOf.
  rewrite !(decide_False (P := Some id = Some statusId)) by congruence.
  rewrite !(decide_True (P := Some statusId = Some statusId)) by done.
  rewrite !(indexOf_from_notin _ _ _ Ha), !(indexOf_from_notin _ _ _ Hd).
  rewrite !decide_True by done. split_and!; lia.
Qed.

Lemma handleMove_unknown_id_witness :
  Thread.handleMoveUp (Some "B") ["A"] ["D"] "Z" = (Z.of_nat 1 - 1)%Z
  ∧ Thread.handleMoveDown (Some "B") ["A"] ["D"] "Z" = (Z.of_nat 1 + 1)%Z
  ∧ Thread.handleMoveUp (Some "B") ["A"] ["D"] "Z"
    = Thread.handleMoveUp (Some "B") ["A"] ["D"] "B"
  ∧ Thread.handleMoveDown (Some "B") ["A"] ["D"] "Z"
    = Thread.handleMoveDown (Some "B") ["A"] ["D"] "B".
Proof.
  apply (handleMove_unknown_id "B" ["A"] ["D"] "Z"). compute_done.
Defined.

(** ** Rendering the children *)

(** X7. The array of children has exactly one element per ancestor, one for
    the focused status and one per descendant, in this order, and each
    element is rendered from the id at its position.  Its key is that id,
    except that the list element of an id ending in -tombstone is a wrapper
    without a key. *)
Theorem children_one_per_id :
  ∀ (statusId : string) (ancestorsIds descendantsIds : list string),
    Thread.rendered_id <$> Thread.children statusId ancestorsIds descendantsIds
    = Thread.children_keys statusId ancestorsIds descendantsIds
    ∧ Thread.key_of <$> Thread.children statusId ancestorsIds descendantsIds
      = ((λ id : string, if endsWith id "-tombstone" then None else Some id)
           <$> ancestorsIds)
        ++ [Some statusId]
        ++ ((λ id : string, if endsWith id "-tombstone" then None else Some id)
              <$> descendantsIds).
Proof.
  assert (∀ focused (ids : list string),
            Thread.rendered_id <$> Thread.renderChildren focused ids = ids)
    as Hids.
  { intros focused ids. unfold Thread.renderChildren.
    induction ids as [|id ids IH]; [done |].
    rewrite !fmap_cons, IH. f_equal.
    destruct (endsWith id "-tombstone"); [done |].
    by destruct (startsWith id "末pending-"). }
  assert (∀ focused (ids : list string),
            Thread.key_of <$> Thread.renderChildren focused ids
            = (λ id : string,
                 if endsWith id "-tombstone" then None else Some id) <$> ids)
    as Hkeys.
  { intros focused ids. unfold Thread.renderChildren.
    induction ids as [|id ids IH]; [done |].
    rewrite !fmap_cons, IH. f_equal.
    destruct (endsWith id "-tombstone"); [done |].
    by destruct (startsWith id "末pending-"). }
  intros statusId ancestorsIds descendantsIds.
  unfold Thread.children, Thread.children_keys.
  rewrite !fmap_app, !Hids, !Hkeys. done.
Qed.

(** X8. A pending id, that is the marker 末pending- followed by an idempotency
    key, is rendered as a pending status with exactly that idempotency key,
    unless the whole id ends in -tombstone. *)
Theorem renderChildren_pending :
  ∀ (focusedStatusId : string) (ids : list string) (i : nat) (k : string),
    ids !! i = Some ("末pending-" ++ k)%string →
    endsWith ("末pending-" ++ k)%string "-tombstone" = false →
    Thread.renderChildren focusedStatusId ids !! i
    = Some (Thread.PendingStatus ("末pending-" ++ k)%string k).
Proof.
  intros focusedStatusId ids i k Hi Hends.
  assert (startsWith ("末pending-" ++ k)%string "末pending-" = true) as Hstarts.
  { unfold startsWith. cbn. by destruct k. }
  unfold Thread.renderChildren. rewrite list_lookup_fmap, Hi.
  cbn [fmap option_fmap option_map]. rewrite Hends, Hstarts. reflexivity.
Qed.

Lemma renderChildren_pending_witness :
  Thread.renderChildren "B" ["A"; "末pending-k1"] !! 1
  = Some (Thread.PendingStatus "末pending-k1" "k1").
Proof.
  apply (renderChildren_pending "B" ["A"; "末pending-k1"] 1 "k1");
    vm_compute; reflexivity.
Defined.

(** * Properties of the page helpers *)

Section page_helpers.
Context {T R P : Type}.
Implicit Types (data : queries.InfiniteData T R P).
Implicit Types (ps : list (queries.PaginatedResult T R)).

Lemma flatten_fold ps (prev : list T) :
  foldl (λ prev curr, queries.result curr ++ prev) prev ps
  = mjoin (reverse (queries.result <$> ps)) ++ prev.
Proof.
  revert prev. induction ps as [|page ps IH]; intros prev; [done |].
  simpl. rewrite IH, reverse_cons, join_app. simpl.
  by rewrite app_nil_r, <- app_assoc.
Qed.

Lemma flattenPages_Some data :
  queries.flattenPages (Some data)
  = Some (mjoin (reverse (queries.result <$> queries.pages data))).
Proof.
  unfold queries.flattenPages. simpl. by rewrite flatten_fold, app_nil_r.
Qed.

Lemma elem_of_flattened data (item : T) :
  item ∈ mjoin (reverse (queries.result <$> queries.pages data))
  ↔ ∃ page, page ∈ queries.pages data ∧ item ∈ queries.result page.
Proof.
  rewrite list_elem_of_join. split.
  - intros (l & Hitem & Hl). rewrite elem_of_reverse in Hl.
    apply list_elem_of_fmap in Hl as (page & -> & Hpage). eauto.
  - intros (page & Hpage & Hitem). exists (queries.result page).
    split; [done |]. rewrite elem_of_reverse. by apply list_elem_of_fmap_2.
Qed.

Lemma join_reverse_fmap {A B : Type} (f : list A → list B)
    (ls : list (list A)) :
  (∀ l1 l2, f (l1 ++ l2) = f l1 ++ f l2) → f [] = [] →
  mjoin (reverse (f <$> ls)) = f (mjoin (reverse ls)).
Proof.
  intros Happ Hnil. rewrite <- fmap_reverse.
  induction (reverse ls) as [|l ls' IH]; [done |].
  change (f l ++ mjoin (f <$> ls') = f (l ++ mjoin ls')).
  by rewrite IH, Happ.
Qed.
End page_helpers.

(** X12. [flattenPages] concatenates the results of the pages with the later
    pages first: the items of the last page open the flattened list and the
    items of the first page close it.  Without data there is no list. *)
Theorem flattenPages_later_pages_first :
  ∀ (T R P : Type) (queryData : option (queries.InfiniteData T R P)),
    queries.flattenPages queryData
    = (λ data, mjoin (reverse (queries.result <$> queries.pages data)))
        <$> queryData.
Proof.
  intros T R P [data|]; [| done]. by rewrite flattenPages_Some.
Qed.

(** X13. [updatePageItem] keeps the shape of the data: the same pages with the
    same further fields and the same number of items each; the flattened
    list is the old flattened list with every matching item replaced by the
    new item. *)
Theorem updatePageItem_shape :
  ∀ (T R P : Type) (newItem : T) (isItem : T → T → bool)
    (data : queries.InfiniteData T R P),
    ∃ data',
      queries.updatePageItem newItem isItem (Some data) = Some data'
      ∧ queries.data_fields data' = queries.data_fields data
      ∧ @queries.page_fields T R <$> queries.pages data'
        = @queries.page_fields T R <$> queries.pages data
      ∧ (λ page : queries.PaginatedResult T R, List.length (queries.result page)) <$> queries.pages data'
        = (λ page : queries.PaginatedResult T R, List.length (queries.result page)) <$> queries.pages data
      ∧ queries.flattenPages (Some data')
        = fmap (M := list)
            (λ item : T, if isItem item newItem then newItem else item)
            <$> queries.flattenPages (Some data).
Proof.
  intros T R P newItem isItem data. eexists. split; [reflexivity |].
  split_and!.
  - done.
  - simpl. by rewrite <- list_fmap_compose.
  - simpl. rewrite <- list_fmap_compose. apply list_fmap_ext.
    intros i page _. simpl. by rewrite length_fmap.
  - rewrite !flattenPages_Some. simpl. f_equal.
    rewrite <- (join_reverse_fmap
                  (fmap (M := list)
                     (λ item : T,
                        if isItem item newItem then newItem else item)))
      by (apply fmap_app || done).
    by rewrite <- !list_fmap_compose.
Qed.

(** X14. [removePageItem] keeps the pages and their further fields; no item that
    matches the removed one is left on any page, and the flattened list is
    the old flattened list without the matching items, the others in their
    old order. *)
Theorem removePageItem_removes_all :
  ∀ (T R P : Type) (itemToRemove : T) (isItem : T → T → bool)
    (data : queries.InfiniteData T R P),
    ∃ data',
      queries.removePageItem itemToRemove isItem (Some data) = Some data'
      ∧ queries.data_fields data' = queries.data_fields data
      ∧ @queries.page_fields T R <$> queries.pages data'
        = @queries.page_fields T R <$> queries.pages data
      ∧ (∀ page item, page ∈ queries.pages data' →
                      item ∈ queries.result page →
                      isItem item itemToRemove = false)
      ∧ queries.flattenPages (Some data')
        = filter (λ item, isItem item itemToRemove = false)
            <$> queries.flattenPages (Some data).
Proof.
  intros T R P itemToRemove isItem data. eexists. split; [reflexivity |].
  split_and!.
  - done.
  - simpl. by rewrite <- list_fmap_compose.
  - simpl. intros page item (page0 & -> & _)%list_elem_of_fmap. simpl.
    by intros [Hitem _]%list_elem_of_filter.
  - rewrite !flattenPages_Some. simpl. f_equal.
    rewrite <- (join_reverse_fmap
                  (filter (λ item, isItem item itemToRemove = false)))
      by (apply filter_app || done).
    by rewrite <- !list_fmap_compose.
Qed.



(** X16. Removing an item right after appending it gives back the cached data as
    it was, when the item matches itself and no cached item matches it. *)
Theorem removePageItem_undoes_appendPageItem :
  ∀ (T R P : Type) (newItem : T) (isItem : T → T → bool)
    (data : queries.InfiniteData T R P) appended,
    isItem newItem newItem = true →
    (∀ page item, page ∈ queries.pages data → item ∈ queries.result page →
                  isItem item newItem = false) →
    queries.appendPageItem newItem (Some data) = queries.Returned appended →
    queries.removePageItem newItem isItem appended = Some data.
Proof.
  intros T R P newItem isItem [ps fields] appended Hself Hfresh Happend.
  unfold queries.appendPageItem in Happend. simpl in *.
  destruct ps as [|[result0 fields0] rest]; [done |].
  injection Happend as <-. simpl. do 2 f_equal.
  f_equal.
  - f_equal. rewrite filter_app, filter_cons_False, filter_nil, app_nil_r
      by (by rewrite Hself).
    apply filter_all_true. intros item Hitem.
    apply (Hfresh {| queries.result := result0; queries.page_fields := fields0 |});
      [left | done].
  - change (list_fmap ?A ?B ?f rest) with (f <$> rest).
    rewrite <- (list_fmap_id rest) at 2. apply list_fmap_ext.
    intros i [result fields'] Hpage. simpl. f_equal.
    apply filter_all_true. intros item Hitem.
    apply (Hfresh {| queries.result := result; queries.page_fields := fields' |});
      [| done].
    right. by eapply list_elem_of_lookup_2.
Qed.

Lemma removePageItem_undoes_appendPageItem_witness :
  queries.removePageItem 3 Nat.eqb
    (Some {| queries.pages :=
               [ {| queries.result := [1; 2; 3]; queries.page_fields := tt |};
                 {| queries.result := [7]; queries.page_fields := tt |} ];
             queries.data_fields := tt |})
  = Some {| queries.pages :=
              [ {| queries.result := [1; 2]; queries.page_fields := tt |};
                {| queries.result := [7]; queries.page_fields := tt |} ];
            queries.data_fields := tt |}.
Proof.
  apply (removePageItem_undoes_appendPageItem nat unit unit 3 Nat.eqb
    {| queries.pages :=
         [ {| queries.result := [1; 2]; queries.page_fields := tt |};
           {| queries.result := [7]; queries.page_fields := tt |} ];
       queries.data_fields := tt |}).
  - reflexivity.
  - intros page item Hpage Hitem.
    repeat (apply elem_of_cons in Hpage as [-> | Hpage]);
      [| | by inversion Hpage]; simpl in Hitem;
      repeat (apply elem_of_cons in Hitem as [-> | Hitem]);
      try reflexivity; by inversion Hitem.
  - reflexivity.
Defined.

(** * The first descendant *)

Lemma descendants_loop_extends statusId contextReplies fuel ids acc r :
  getDescendantsIds_loop fuel statusId contextReplies ids acc = Some r →
  acc `prefix_of` r.
Proof.
  intros Hrun.
  apply (descendants_loop_invariant statusId contextReplies
           (λ _ acc', acc `prefix_of` acc')) in Hrun.
  - by destruct Hrun as (_ & Hprefix & _).
  - intros id ids' acc' Hprefix _ _. unfold record_descendant.
    case_bool_decide; [| done]. etrans; [done |]. by apply prefix_app_r.
  - done.
Qed.

(** X2. When [resolveDescendants] returns for a truthy focal id, its result
    starts with the first reply of the focal id; it is empty exactly when the
    focal id has no replies or the first of them is the empty string. *)
Theorem resolveDescendants_first_reply :
  ∀ fuel (focalId : string) (childIndex : gmap string (list string)) r,
    resolveDescendants fuel focalId childIndex = Some r →
    focalId ≠ "" →
    head r = match head (replies_of childIndex focalId) with
             | Some x => if decide (x = "") then None else Some x
             | None => None
             end.
Proof.
  intros fuel focalId childIndex r Hrun Hne.
  unfold resolveDescendants, getDescendantsIds in Hrun.
  destruct fuel as [|fuel].
  { rewrite descendants_loop_out_of_fuel in Hrun; [done | done | by inversion 1]. }
  rewrite descendants_loop_turn in Hrun; [| done | by inversion 1].
  unfold record_descendant in Hrun.
  rewrite bool_decide_eq_false_2 in Hrun by tauto.
  destruct (replies_of childIndex focalId) as [|x replies] eqn:Hreplies.
  { rewrite descendants_loop_exit in Hrun by by left.
    by injection Hrun as <-. }
  simpl in *. destruct (decide (x = "")) as [-> | Hx].
  { rewrite descendants_loop_exit in Hrun by (right; eauto).
    by injection Hrun as <-. }
  destruct (decide (x = focalId)) as [-> | Hfocal].
  { rewrite descendants_loop_diverges in Hrun; [done |].
    split; [done |]. by rewrite Hreplies. }
  destruct fuel as [|fuel].
  { rewrite descendants_loop_out_of_fuel in Hrun; [done | done | by inversion 1]. }
  rewrite descendants_loop_turn in Hrun; [| done | by inversion 1].
  unfold record_descendant in Hrun.
  rewrite bool_decide_eq_true_2 in Hrun by done.
  apply descendants_loop_extends in Hrun as [tail ->]. done.
Qed.

Lemma resolveDescendants_first_reply_witness :
  head ["B"; "D"; "C"]
  = match head (replies_of shared_reply_children "A") with
    | Some x => if decide (x = "") then None else Some x
    | None => None
    end.
Proof.
  apply (resolveDescendants_first_reply 4 "A" shared_reply_children).
  - vm_compute; reflexivity.
  - discriminate.
Defined.
